(** * Cadence history task pipeline and tooling: a shallow embedding

    The development follows the Go sources:
    - [service/history/task] interface file: [Info], [Task], [Key],
      [Processor], [Redispatcher], [Fetcher] and the [QueueType] constants;
    - the start command of package [cadence]: [getServices],
      [isValidService], [constructPathIfNeed];
    - [tools/linter/funcorder]: [run], [getRecvStructName], [isMock];
    - [tools/cli]: the domain commands [UpdateDomain], [failoverDomains],
      [getAllDomains], [ListDomains] and the client factory
      ([ensureDispatcher]).

    Go [int]/[int64] values are modelled as [Z]; none of the modelled
    operations can overflow, and a conversion to [int32] is written
    out.  Go strings are byte strings ([string]). *)

From Stdlib Require Import ZArith Lia Ascii.
From stdpp Require Import base decidable list sorting strings gmap.

Local Open Scope Z_scope.

(* [set_solver] clears hypotheses by name while it searches. *)
#[local] Set Warnings "-clear-no-such-hyp".

(** ** The task model *)

Module TaskModel.

(** [QueueType] is declared [type QueueType int]; every [int] is a
    value of the type, the constants name six of them. *)
Definition QueueType := Z.

(** [iota] counts the lines of the [const] block from zero; the first
    line is [iota + 1] and the following lines repeat the expression. *)
Definition iota_plus_one (line : Z) : QueueType := line + 1.

Definition QueueTypeActiveTransfer : QueueType := iota_plus_one 0.
Definition QueueTypeStandbyTransfer : QueueType := iota_plus_one 1.
Definition QueueTypeActiveTimer : QueueType := iota_plus_one 2.
Definition QueueTypeStandbyTimer : QueueType := iota_plus_one 3.
Definition QueueTypeReplication : QueueType := iota_plus_one 4.
Definition QueueTypeCrossCluster : QueueType := iota_plus_one 5.

(** The constants in declaration order. *)
Definition queueTypes : list QueueType :=
  [ QueueTypeActiveTransfer; QueueTypeStandbyTransfer;
    QueueTypeActiveTimer; QueueTypeStandbyTimer;
    QueueTypeReplication; QueueTypeCrossCluster ].

(** A queue type is valid when it is one of the declared constants. *)
Definition isDeclaredQueueType (q : QueueType) : bool :=
  bool_decide (q ∈ queueTypes).

(** The getters of [Info] and [Task] as record fields.  [time.Time] is
    a count of nanoseconds; the shard context is its identifier. *)
Record Task := mkTask {
  GetVersion : Z;
  GetTaskID : Z;
  GetTaskType : Z;
  GetVisibilityTimestamp : Z;
  GetWorkflowID : string;
  GetRunID : string;
  GetDomainID : string;
  GetQueueType : QueueType;
  GetShard : Z;
  GetAttempt : Z;
  Priority : Z
}.

(** Modelled from the spec: the implementations of the [Key] interface
    are not part of the sources at hand.  The spec gives the key of a
    task as its visibility timestamp together with its task ID. *)
Record Key := mkKey {
  visibilityTimestamp : Z;
  taskID : Z
}.

#[global] Instance Key_eq_dec : EqDecision Key.
Proof. solve_decision. Defined.

Definition keyOf (t : Task) : Key :=
  {| visibilityTimestamp := GetVisibilityTimestamp t;
     taskID := GetTaskID t |}.

(** Modelled from the spec: [Key.Less]; "tasks compare by visibility
    time first, then by task ID as a tie-break". *)
Definition Less (k1 k2 : Key) : bool :=
  if Z.eqb (visibilityTimestamp k1) (visibilityTimestamp k2)
  then Z.ltb (taskID k1) (taskID k2)
  else Z.ltb (visibilityTimestamp k1) (visibilityTimestamp k2).

Definition taskLess (a b : Task) : bool := Less (keyOf a) (keyOf b).

(** Modelled from the spec: sorting a list of tasks by [Key].  The sort
    is driven by the [Less] predicate alone, as Go's [sort] package is;
    it is a stable insertion sort. *)
Fixpoint insertByKey (x : Task) (l : list Task) : list Task :=
  match l with
  | [] => [x]
  | y :: l' => if taskLess y x then y :: insertByKey x l' else x :: y :: l'
  end.

Fixpoint sortByKey (l : list Task) : list Task :=
  match l with
  | [] => []
  | x :: l' => insertByKey x (sortByKey l')
  end.

(** A list is in key order when no element is followed by a smaller one. *)
Definition notAfter (a b : Task) : Prop := taskLess b a = false.

End TaskModel.

(** ** The server start command *)

Module Cli.

Local Open Scope string_scope.

(** [log.Fatal] and [log.Fatalf] end the process; the embedding returns
    the failure instead. *)
Inductive fatal :=
| FatalEmptyServiceList
| FatalInvalidService (t val : string).

(** The white space of [strings.TrimSpace] among single bytes: tab,
    line feed, vertical tab, form feed, carriage return and space.
    Code points above the ASCII range are encoded on several bytes and
    are not removed by this model. *)
Definition isSpace (c : ascii) : bool :=
  match c with
  | "009"%char | "010"%char | "011"%char | "012"%char | "013"%char
  | " "%char => true
  | _ => false
  end.

Fixpoint trimLeft (s : string) : string :=
  match s with
  | String c s' => if isSpace c then trimLeft s' else s
  | EmptyString => EmptyString
  end.

Definition TrimSpace (s : string) : string :=
  String.rev (trimLeft (String.rev (trimLeft s))).

(** A value made of white space only. *)
Fixpoint allSpace (s : string) : bool :=
  match s with
  | String c s' => isSpace c && allSpace s'
  | EmptyString => true
  end.

(** [strings.Split(s, sep)] for a separator of one byte: the bytes up
    to the next separator form a token ([tok] collects them), the scan
    goes on behind the separator, and what is left at the end of the
    input is the last token. *)
Fixpoint splitFrom (sep : ascii) (s tok : string) : list string :=
  match s with
  | EmptyString => [tok]
  | String c s' =>
      if Ascii.eqb c sep then tok :: splitFrom sep s' EmptyString
      else splitFrom sep s' (tok ++ String c EmptyString)
  end.

Definition Split (s : string) (sep : ascii) : list string :=
  splitFrom sep s EmptyString.

(** [isValidService]; the table [validServices] is computed from
    [service.List], which is outside the sources at hand, and is a
    parameter here. *)
Fixpoint isValidService (validServices : list string) (inp : string) : bool :=
  match validServices with
  | [] => false
  | s :: rest => if String.eqb s inp then true else isValidService rest inp
  end.

(** The loop of [getServices] over the tokens: the first token that is
    not a valid service ends the process. *)
Fixpoint checkTokens (validServices : list string) (val : string)
    (tokens : list string) : option fatal :=
  match tokens with
  | [] => None
  | t :: rest =>
      if negb (isValidService validServices t)
      then Some (FatalInvalidService t val)
      else checkTokens validServices val rest
  end.

(** [getServices], on the value of the [services] flag. *)
Definition getServices (validServices : list string) (flag : string)
    : fatal + list string :=
  let val := TrimSpace flag in
  let tokens := Split val ","%char in
  if Nat.eqb (List.length tokens) 0 then inl FatalEmptyServiceList
  else match checkTokens validServices val tokens with
       | Some f => inl f
       | None => inr tokens
       end.

(** The short names of the four services of a Cadence server, used to
    exercise the definitions on a concrete table. *)
Definition sampleServices : list string :=
  ["frontend"; "history"; "matching"; "worker"].

(** [filepath.IsAbs] on Unix: the path starts with a slash. *)
Definition unixIsAbs (path : string) : bool :=
  match path with
  | String c _ => Ascii.eqb c "/"%char
  | EmptyString => false
  end.

(** [constructPathIfNeed]; [filepath.IsAbs] depends on the operating
    system and is a parameter. *)
Definition constructPathIfNeed (IsAbs : string -> bool) (dir file : string)
    : string :=
  if negb (IsAbs file) then dir ++ "/" ++ file else file.

End Cli.

(** ** The funcorder analyzer *)

Module Funcorder.

Local Open Scope string_scope.

(** The part of the [dst] syntax tree the analyzer looks at.  Bodies,
    specifications and decorations are carried as opaque payloads. *)
Inductive Expr :=
| Ident (Name : string)
| StarExpr (X : Expr)
| IndexExpr (X Index : Expr)
| SelectorExpr (X : Expr) (Sel : string).

Record Field := mkField {
  Names : list string;
  Type_ : Expr
}.

(** [Recv] of a [FuncDecl] is a pointer to a field list, [nil] for a
    plain function. *)
Inductive Decl :=
| GenDecl (Tok : string) (Specs : nat)
| FuncDecl (Recv : option (list Field)) (Name : string) (Body : nat)
| BadDecl (Length : nat).

Record recvFunc := mkRecvFunc {
  Index : nat;
  FuncName : string
}.

(** [Ident.IsExported]: the name starts with an upper case letter;
    letters outside ASCII are not covered by the model. *)
Definition isUpper (c : ascii) : bool :=
  (65 <=? nat_of_ascii c)%nat && (nat_of_ascii c <=? 90)%nat.

Definition IsExported (name : string) : bool :=
  match name with
  | String c _ => isUpper c
  | EmptyString => false
  end.

(** [getRecvStructName], on the receiver and the name of a [FuncDecl]. *)
Definition getRecvStructName (Recv : option (list Field)) (Name : string)
    : string :=
  match Recv with
  | Some [f] =>
      if IsExported Name then
        match Type_ f with
        | StarExpr (Ident name) => name
        | _ => ""
        end
      else ""
  | _ => ""
  end.

(** [isMock]: [len(s) > 4 && s[0:4] == "Mock"]. *)
Definition isMock (s : string) : bool :=
  (4 <? String.length s)%nat && String.eqb (String.substring 0 4 s) "Mock".

(** The first loop of [run]: the receiver-to-methods table, built from
    the declarations in order; [i] is the index of the head of [decls]. *)
Fixpoint collect (i : nat) (decls : list Decl)
    (rFuncs : gmap string (list recvFunc)) : gmap string (list recvFunc) :=
  match decls with
  | [] => rFuncs
  | FuncDecl Recv Name _ :: rest =>
      let recv := getRecvStructName Recv Name in
      if String.eqb recv "" || isMock recv then collect (S i) rest rFuncs
      else
        collect (S i) rest
          (<[recv := (default [] (rFuncs !! recv)
                      ++ [{| Index := i; FuncName := Name |}])%list]> rFuncs)
  | _ :: rest => collect (S i) rest rFuncs
  end.

Definition buildRFuncs (decls : list Decl) : gmap string (list recvFunc) :=
  collect 0 decls ∅.

(** [Decls[a], Decls[b] = Decls[b], Decls[a]]: both operands are read,
    then both are written.  An index out of range panics ([None]). *)
Definition swapDecls (a b : nat) (decls : list Decl) : option (list Decl) :=
  match decls !! b, decls !! a with
  | Some y, Some x => Some (<[b := x]> (<[a := y]> decls))
  | _, _ => None
  end.

(** The loop over [j] for a fixed [recv1 = funcList[i]]; [rest] holds
    [funcList[i+1:]]. *)
Fixpoint innerLoop (recv1 : recvFunc) (rest : list recvFunc)
    (decls : list Decl) : option (list Decl) :=
  match rest with
  | [] => Some decls
  | recv2 :: rest' =>
      match String.compare (FuncName recv1) (FuncName recv2) with
      | Gt =>
          match swapDecls (Index recv1) (Index recv2) decls with
          | Some decls' => innerLoop recv1 rest' decls'
          | None => None
          end
      | _ => innerLoop recv1 rest' decls
      end
  end.

(** The loop over [i]. *)
Fixpoint outerLoop (funcList : list recvFunc) (decls : list Decl)
    : option (list Decl) :=
  match funcList with
  | [] => Some decls
  | recv1 :: rest =>
      match innerLoop recv1 rest decls with
      | Some decls' => outerLoop rest decls'
      | None => None
      end
  end.

(** [for _, funcList := range rFuncs]: Go visits the entries of a map
    in an unspecified order; [order] is the order of one execution. *)
Fixpoint rearrange (order : list (list recvFunc)) (decls : list Decl)
    : option (list Decl) :=
  match order with
  | [] => Some decls
  | funcList :: rest =>
      match outerLoop funcList decls with
      | Some decls' => rearrange rest decls'
      | None => None
      end
  end.

Definition isRangeOrder (rFuncs : gmap string (list recvFunc))
    (order : list (list recvFunc)) : Prop :=
  order ≡ₚ (map_to_list rFuncs).*2.

(** [run] on the declarations of one file, for an execution that
    visits the table in [order]; the result is what is printed back. *)
Definition runWith (order : list (list recvFunc)) (decls : list Decl)
    : option (list Decl) :=
  rearrange order decls.

Definition run (decls : list Decl) : option (list Decl) :=
  runWith (map_to_list (buildRFuncs decls)).*2 decls.

(** The declarations the analyzer may move: exported methods with a
    single receiver of pointer type [*T], [T] not a mock name. *)
Definition isMockName (s : string) : Prop :=
  (4 < String.length s)%nat ∧ String.substring 0 4 s = "Mock".

Definition reorderable (d : Decl) : Prop :=
  match d with
  | FuncDecl (Some [f]) Name _ =>
      IsExported Name = true ∧
      ∃ T, Type_ f = StarExpr (Ident T) ∧ ¬ isMockName T
  | _ => False
  end.

(** The frame of a rewriting step: same declarations, same length, and
    every position outside [touched] as before. *)
Definition preserves (touched : list nat) (l l' : list Decl) : Prop :=
  l' ≡ₚ l /\ List.length l' = List.length l /\
  forall k, k ∉ touched -> l' !! k = l !! k.

(** Every entry of the table points at a declaration that may move. *)
Definition indexesReorderable (decls : list Decl)
    (rFuncs : gmap string (list recvFunc)) : Prop :=
  forall recv funcList rf,
    rFuncs !! recv = Some funcList -> rf ∈ funcList ->
    exists d, decls !! Index rf = Some d /\ reorderable d.

(** Two methods of a type named exactly [Mock], out of order, and a
    method of a mock type [MockStore]. *)
Definition method (T name : string) (body : nat) : Decl :=
  FuncDecl (Some [{| Names := ["m"]; Type_ := StarExpr (Ident T) |}])
           name body.

Definition sampleDecls : list Decl :=
  [ method "Mock" "Stop" 1; GenDecl "type" 0; method "Mock" "Start" 2;
    method "MockStore" "Put" 3; method "MockStore" "Get" 4 ].

End Funcorder.

(** ** The processing pipeline

    The sources at hand declare [Processor], [Redispatcher], [Fetcher],
    [Executor] and [Initializer] as interfaces; their implementations
    are elsewhere.  The state machines of this module are modelled
    from the specification of these components; the signatures of the
    operations are the ones of the interface file. *)

Module Pipeline.

Import TaskModel.

(** Modelled from the spec: the lifecycle error [Stopped], next to the
    errors an executor or an admission check can report. *)
Inductive Error :=
| ErrStopped
| ErrOther (code : Z).

(** The persisted record a task is made of: the getters of [Info]. *)
Record Info := mkInfo {
  infoVersion : Z;
  infoTaskID : Z;
  infoTaskType : Z;
  infoVisibilityTimestamp : Z;
  infoWorkflowID : string;
  infoRunID : string;
  infoDomainID : string
}.

(** Modelled from the spec: an [Initializer] (implementations missing)
    creates the task of a record for a queue and a shard; the retry
    counter "starts at 0". *)
Definition Initializer (queue : QueueType) (shard : Z) (info : Info) : Task :=
  {| GetVersion := infoVersion info;
     GetTaskID := infoTaskID info;
     GetTaskType := infoTaskType info;
     GetVisibilityTimestamp := infoVisibilityTimestamp info;
     GetWorkflowID := infoWorkflowID info;
     GetRunID := infoRunID info;
     GetDomainID := infoDomainID info;
     GetQueueType := queue;
     GetShard := shard;
     GetAttempt := 0;
     Priority := 0 |}.

(** Modelled from the spec: the two mutations of a task (the
    implementations of [Task] are missing): the retry counter is
    "incremented on every redispatch", and a [PriorityAssigner]
    attaches a priority. *)
Definition incAttempt (t : Task) : Task :=
  {| GetVersion := GetVersion t;
     GetTaskID := GetTaskID t;
     GetTaskType := GetTaskType t;
     GetVisibilityTimestamp := GetVisibilityTimestamp t;
     GetWorkflowID := GetWorkflowID t;
     GetRunID := GetRunID t;
     GetDomainID := GetDomainID t;
     GetQueueType := GetQueueType t;
     GetShard := GetShard t;
     GetAttempt := GetAttempt t + 1;
     Priority := Priority t |}.

Definition SetPriority (prio : Z) (t : Task) : Task :=
  {| GetVersion := GetVersion t;
     GetTaskID := GetTaskID t;
     GetTaskType := GetTaskType t;
     GetVisibilityTimestamp := GetVisibilityTimestamp t;
     GetWorkflowID := GetWorkflowID t;
     GetRunID := GetRunID t;
     GetDomainID := GetDomainID t;
     GetQueueType := GetQueueType t;
     GetShard := GetShard t;
     GetAttempt := GetAttempt t;
     Priority := prio |}.

(** The identity fields of a task. *)
Definition identity (t : Task)
    : string * string * string * Z * Z * Z * Z * QueueType :=
  (GetDomainID t, GetWorkflowID t, GetRunID t, GetTaskID t, GetVersion t,
   GetTaskType t, GetVisibilityTimestamp t, GetQueueType t).

(** *** Processor *)

(** Modelled from the spec: the worker pool behind [Processor] (the
    implementation is missing).  A task holds one of the [poolSize]
    slots from the moment it is accepted until its execution returns:
    [queued] are the accepted tasks no worker has taken yet,
    [executing] the ones in flight. *)
Record Processor := mkProcessor {
  poolSize : nat;
  procStopped : bool;
  queued : list Task;
  executing : list Task
}.

Definition occupancy (p : Processor) : nat :=
  (List.length (queued p) + List.length (executing p))%nat.

Definition atCapacity (p : Processor) : bool :=
  (poolSize p <=? occupancy p)%nat.

Definition enqueue (t : Task) (p : Processor) : Processor :=
  {| poolSize := poolSize p; procStopped := procStopped p;
     queued := queued p ++ [t]; executing := executing p |}.

(** Modelled from the spec: [TrySubmit(Task) (bool, error)], the
    non-blocking submission: [false] without error when the pool is
    saturated, the [Stopped] error after [Stop]. *)
Definition TrySubmit (t : Task) (p : Processor)
    : (bool * option Error) * Processor :=
  if procStopped p then ((false, Some ErrStopped), p)
  else if atCapacity p then ((false, None), p)
  else ((true, None), enqueue t p).

(** A call that can block has either returned or is still waiting. *)
Inductive callStatus :=
| Returned (err : option Error)
| Blocked.

(** Modelled from the spec: [Submit(Task) error], the blocking
    submission: it "blocks the caller until capacity is available or
    the processor is stopped". *)
Definition Submit (t : Task) (p : Processor) : callStatus * Processor :=
  if procStopped p then (Returned (Some ErrStopped), p)
  else if atCapacity p then (Blocked, p)
  else (Returned None, enqueue t p).

(** Modelled from the spec: [Stop()] of the [Processor]. *)
Definition Stop (p : Processor) : Processor :=
  {| poolSize := poolSize p; procStopped := true;
     queued := queued p; executing := executing p |}.

(** Modelled from the spec: a worker takes the [i]-th queued task and
    hands it to [Executor.Execute]. *)
Definition workerPick (i : nat) (p : Processor) : Processor :=
  match queued p !! i with
  | None => p
  | Some t =>
      {| poolSize := poolSize p; procStopped := procStopped p;
         queued := delete i (queued p); executing := executing p ++ [t] |}
  end.

(** Modelled from the spec: the [i]-th execution in flight returns
    [err].  "On Execute returning an error, the task is ... handed to
    the owning shard's Redispatcher"; "on success, the task is
    discarded".  The first component is the task handed over. *)
Definition workerDone (i : nat) (err : option Error) (p : Processor)
    : option Task * Processor :=
  match executing p !! i with
  | None => (None, p)
  | Some t =>
      (match err with Some _ => Some t | None => None end,
       {| poolSize := poolSize p; procStopped := procStopped p;
          queued := queued p; executing := delete i (executing p) |})
  end.

(** The moves of the workers: taking a task and finishing one. *)
Inductive WorkerMove :=
| MovePick (i : nat)
| MoveDone (i : nat) (err : option Error).

Definition workerStep (m : WorkerMove) (p : Processor) : Processor :=
  match m with
  | MovePick i => workerPick i p
  | MoveDone i err => snd (workerDone i err p)
  end.

Definition workerSteps (ms : list WorkerMove) (p : Processor) : Processor :=
  foldl (fun p m => workerStep m p) p ms.

(** *** Redispatcher *)

(** Modelled from the spec: the retry buffer behind [Redispatcher]
    (the implementation is missing). *)
Record Redispatcher := mkRedispatcher {
  buffer : list Task
}.

(** [AddTask(Task)]: "inserts without blocking". *)
Definition AddTask (t : Task) (r : Redispatcher) : Redispatcher :=
  {| buffer := buffer r ++ [t] |}.

(** [Size() int]. *)
Definition Size (r : Redispatcher) : Z := Z.of_nat (List.length (buffer r)).

(** Modelled from the spec: the loop of [Redispatch(targetSize)]; it
    "drains tasks from the buffer and resubmits each via TrySubmit to
    the Processor until either the buffer is below targetSize or the
    Processor is saturated"; "every re-submission increments
    Attempt".  A task that is refused stays in the buffer as it was. *)
Fixpoint drain (targetSize : Z) (buf : list Task) (p : Processor)
    : list Task * Processor :=
  match buf with
  | [] => ([], p)
  | t :: rest =>
      if Z.of_nat (List.length buf) <? targetSize then (buf, p)
      else
        match TrySubmit (incAttempt t) p with
        | ((true, _), p') => drain targetSize rest p'
        | ((false, _), _) => (buf, p)
        end
  end.

Definition Redispatch (targetSize : Z) (r : Redispatcher) (p : Processor)
    : Redispatcher * Processor :=
  let '(buf, p') := drain targetSize (buffer r) p in
  ({| buffer := buf |}, p').

(** *** The life of a task *)

(** Modelled from the spec: what happens to a task between its
    creation and its end: a priority is assigned, it is routed to the
    redispatcher after an admission error ([AddTask], "Attempt
    unchanged"), or the redispatcher submits it again. *)
Inductive Mutation :=
| AssignPriority (prio : Z)
| RouteAdmissionError
| Resubmit.

Definition mutate (t : Task) (m : Mutation) : Task :=
  match m with
  | AssignPriority prio => SetPriority prio t
  | RouteAdmissionError => t
  | Resubmit => incAttempt t
  end.

Definition lifecycle (ms : list Mutation) (t : Task) : Task :=
  foldl mutate t ms.

Definition isResubmit (m : Mutation) : bool :=
  match m with
  | Resubmit => true
  | _ => false
  end.

(** How often the task was submitted again in [ms]. *)
Definition resubmissions (ms : list Mutation) : Z :=
  Z.of_nat (List.length (List.filter isResubmit ms)).

(** A task, and a pool of one worker that is busy with it, for the
    scenario "pool size 1, two tasks submitted". *)
Definition sampleTask (id : Z) : Task :=
  Initializer QueueTypeActiveTransfer 7
    {| infoVersion := 1; infoTaskID := id; infoTaskType := 0;
       infoVisibilityTimestamp := 100; infoWorkflowID := "wf";
       infoRunID := "run"; infoDomainID := "domain" |}.

Definition busyPool : Processor :=
  {| poolSize := 1; procStopped := false; queued := [];
     executing := [sampleTask 5] |}.

End Pipeline.

(** ** The funcorder analyzer: reading the table *)

Module FuncorderTable.
Import Funcorder.

Local Open Scope string_scope.

(** The receiver name [run] computes for a declaration: the result of
    [getRecvStructName] on a [FuncDecl]; the type switch has no other
    case, which the empty name stands for. *)
Definition declRecv (d : Decl) : string :=
  match d with
  | FuncDecl Recv Name _ => getRecvStructName Recv Name
  | _ => ""
  end.

(** [funcDecl.Name.Name]. *)
Definition declName (d : Decl) : string :=
  match d with
  | FuncDecl _ Name _ => Name
  | _ => ""
  end.

(** The declarations that get an entry: the guard
    [recv == "" || isMock(recv)] of the first loop skips the others. *)
Definition tracked (d : Decl) : bool :=
  negb (String.eqb (declRecv d) "" || isMock (declRecv d)).

(** The methods of receiver [T] with their positions, read off the
    declarations from position [i] on. *)
Fixpoint methodsFrom (i : nat) (T : string) (decls : list Decl)
    : list recvFunc :=
  match decls with
  | [] => []
  | d :: rest =>
      if tracked d && String.eqb (declRecv d) T
      then {| Index := i; FuncName := declName d |} :: methodsFrom (S i) T rest
      else methodsFrom (S i) T rest
  end.

(** The methods of each receiver appear in non-decreasing order of
    their names ([strings.Compare] is never positive from an earlier
    method to a later one of the same receiver). *)
Definition nameOrdered (decls : list Decl) : Prop :=
  forall i j d1 d2,
    (i < j)%nat -> decls !! i = Some d1 -> decls !! j = Some d2 ->
    tracked d1 = true -> declRecv d1 = declRecv d2 ->
    String.compare (declName d1) (declName d2) <> Gt.

(** The test of the inner loop fails: no swap from [r1] to [r2]. *)
Definition notGreater (r1 r2 : recvFunc) : Prop :=
  String.compare (FuncName r1) (FuncName r2) <> Gt.

(** A file with two receivers and a plain function, in order. *)
Definition orderedDecls : list Decl :=
  [ method "Store" "Get" 1; method "Cache" "Put" 2;
    FuncDecl None "helper" 3; method "Store" "Put" 4;
    method "Cache" "Reset" 5 ].

End FuncorderTable.

(** ** The start command: flags, directories and the dynamic config *)

Module CliStart.
Import Cli.

Local Open Scope string_scope.

(** [strings.Join(elems, sep)]. *)
Fixpoint Join (elems : list string) (sep : string) : string :=
  match elems with
  | [] => ""
  | e :: rest =>
      match rest with
      | [] => e
      | _ :: _ => e ++ sep ++ Join rest sep
      end
  end.

(** The default of the [services] flag in [BuildCLI]:
    [strings.Join(validServices, ",")]. *)
Definition defaultServices (validServices : list string) : string :=
  Join validServices ",".

(** The defaults of the global flags [root] and [config]. *)
Definition defaultRoot : string := ".".
Definition defaultConfig : string := "config".

(** A service name without white space and without a comma. *)
Fixpoint plainName (s : string) : bool :=
  match s with
  | EmptyString => true
  | String c s' => negb (isSpace c) && negb (Ascii.eqb c ",") && plainName s'
  end.

(** A value without white space. *)
Fixpoint noSpace (s : string) : bool :=
  match s with
  | EmptyString => true
  | String c s' => negb (isSpace c) && noSpace s'
  end.

(** [getEnvironment] and [getZone], on the values of the flags. *)
Definition getEnvironment (envFlag : string) : string := TrimSpace envFlag.
Definition getZone (zoneFlag : string) : string := TrimSpace zoneFlag.

(** [getRootDir]: [rootFlag] is the value of the [root] flag, [getwd]
    the result of [os.Getwd] ([None] for an error); [log.Fatalf] ends
    the process, which is the result [None]. *)
Definition getRootDir (rootFlag : string) (getwd : option string)
    : option string :=
  if Nat.eqb (String.length rootFlag) 0 then
    match getwd with
    | Some cwd => Some cwd
    | None => None
    end
  else Some rootFlag.

(** [getConfigDir]: the root directory is computed first, as the
    argument of the call. *)
Definition getConfigDir (IsAbs : string -> bool) (rootFlag : string)
    (getwd : option string) (configFlag : string) : option string :=
  match getRootDir rootFlag getwd with
  | Some root => Some (constructPathIfNeed IsAbs root configFlag)
  | None => None
  end.

(** The fields of the loaded configuration that [startHandler] reads
    and writes before the validation: [DynamicConfig.Client],
    [DynamicConfigClient.Filepath] and [DynamicConfig.FileBased.Filepath]. *)
Record DynamicConfig := mkDynamicConfig {
  Client : string;
  ClientFilepath : string;
  FileBasedFilepath : string
}.

(** The rewriting of the dynamic config file path in [startHandler]. *)
Definition resolveDynamicConfig (IsAbs : string -> bool) (rootDir : string)
    (cfg : DynamicConfig) : DynamicConfig :=
  if String.eqb (Client cfg) "" then
    {| Client := Client cfg;
       ClientFilepath := constructPathIfNeed IsAbs rootDir (ClientFilepath cfg);
       FileBasedFilepath := FileBasedFilepath cfg |}
  else
    {| Client := Client cfg;
       ClientFilepath := ClientFilepath cfg;
       FileBasedFilepath :=
         constructPathIfNeed IsAbs rootDir (FileBasedFilepath cfg) |}.

End CliStart.

(** ** The domain commands of the CLI

    The request and response types are those of package [types]; the
    records below carry the fields the commands read and write.  The
    getters of that package ([GetName], [GetData],
    [GetActiveClusterName], ...) return the zero value on a nil
    receiver; a field read directly through a nil pointer panics.
    The entries of a list of responses are not nil.  [ErrorAndExit]
    ends the process. *)

Module DomainCli.
Import Cli.

Local Open Scope string_scope.

(** [strings.ToLower] on the letters of ASCII; other bytes are left
    as they are by this model. *)
Definition toLowerByte (c : ascii) : ascii :=
  if Funcorder.isUpper c then ascii_of_nat (nat_of_ascii c + 32) else c.

Fixpoint ToLower (s : string) : string :=
  match s with
  | EmptyString => EmptyString
  | String c s' => String (toLowerByte c) (ToLower s')
  end.

(** [types.DomainStatus] is an integer type; its constants are
    parameters of the functions that compare with them. *)
Definition DomainStatus := Z.

Record DomainInfo := mkDomainInfo {
  Name : string;
  Status : option DomainStatus;
  Description : string;
  OwnerEmail : string;
  Data : gmap string string;
  UUID : string
}.

Record DomainConfiguration := mkDomainConfiguration {
  WorkflowExecutionRetentionPeriodInDays : Z;
  EmitMetric : bool
}.

Record DomainReplicationConfiguration := mkDomainReplicationConfiguration {
  ActiveClusterName : string;
  Clusters : list string
}.

Record DescribeDomainResponse := mkDescribeDomainResponse {
  DomainInfo_ : option DomainInfo;
  Configuration : option DomainConfiguration;
  ReplicationConfiguration : option DomainReplicationConfiguration;
  IsGlobalDomain : bool
}.

Definition GetName (v : option DomainInfo) : string :=
  match v with Some i => Name i | None => "" end.

Definition GetDescription (v : option DomainInfo) : string :=
  match v with Some i => Description i | None => "" end.

Definition GetOwnerEmail (v : option DomainInfo) : string :=
  match v with Some i => OwnerEmail i | None => "" end.

Definition GetData (v : option DomainInfo) : gmap string string :=
  match v with Some i => Data i | None => ∅ end.

Definition GetActiveClusterName (v : option DomainReplicationConfiguration)
    : string :=
  match v with Some r => ActiveClusterName r | None => "" end.

Definition GetWorkflowExecutionRetentionPeriodInDays
    (v : option DomainConfiguration) : Z :=
  match v with
  | Some c => WorkflowExecutionRetentionPeriodInDays c
  | None => 0
  end.

Definition GetEmitMetric (v : option DomainConfiguration) : bool :=
  match v with Some c => EmitMetric c | None => false end.

(** Reading a Go map: the zero value for a missing key. *)
Definition mapGet (m : gmap string string) (k : string) : string :=
  default "" (m !! k).

(** [isDomainFailoverManagedByCadence]; [key] is
    [common.DomainDataKeyForManagedFailover]. *)
Definition isDomainFailoverManagedByCadence (key : string)
    (domain : DescribeDomainResponse) : bool :=
  String.eqb
    (ToLower (TrimSpace (mapGet (GetData (DomainInfo_ domain)) key)))
    "true".

Inductive ArchivalStatus := ArchivalStatusDisabled | ArchivalStatusEnabled.

(** [types.BadBinaries] with the one entry [UpdateDomain] builds. *)
Record BadBinaryInfo := mkBadBinaryInfo {
  Reason : string;
  Operator : string
}.

(** [types.UpdateDomainRequest]; the fields carry the prefix [Req]
    where a response has a field of the same name.  A nil pointer is
    [None], a nil slice the empty list, a nil map the empty map. *)
Record UpdateDomainRequest := mkUpdateDomainRequest {
  ReqName : string;
  ReqDescription : option string;
  ReqOwnerEmail : option string;
  ReqData : gmap string string;
  ReqRetentionDays : option Z;
  ReqEmitMetric : option bool;
  BadBinaries : option (gmap string BadBinaryInfo);
  HistoryArchivalStatus : option ArchivalStatus;
  HistoryArchivalURI : option string;
  VisibilityArchivalStatus : option ArchivalStatus;
  VisibilityArchivalURI : option string;
  ReqActiveClusterName : option string;
  ReqClusters : list string;
  SecurityToken : string;
  DeleteBadBinary : option string;
  FailoverTimeoutInSeconds : option Z
}.

(** The composite literal [&types.UpdateDomainRequest{Name: name}]:
    every other field has its zero value. *)
Definition requestFor (name : string) : UpdateDomainRequest :=
  {| ReqName := name; ReqDescription := None; ReqOwnerEmail := None;
     ReqData := ∅; ReqRetentionDays := None; ReqEmitMetric := None;
     BadBinaries := None; HistoryArchivalStatus := None;
     HistoryArchivalURI := None; VisibilityArchivalStatus := None;
     VisibilityArchivalURI := None; ReqActiveClusterName := None;
     ReqClusters := []; SecurityToken := ""; DeleteBadBinary := None;
     FailoverTimeoutInSeconds := None |}.

Inductive rpcError :=
| EntityNotExistsError
| OtherError (code : Z).

Record ListDomainsRequest := mkListDomainsRequest {
  PageSize : Z;
  NextPageToken : string
}.

Record ListDomainsResponse := mkListDomainsResponse {
  Domains : list DescribeDomainResponse;
  RespNextPageToken : string
}.

(** What [failoverDomains] returns, with the requests it has passed
    to [d.updateDomain], in order, and the state of the server. *)
Record failoverRun (Server : Type) := mkFailoverRun {
  succeedDomains : list string;
  failedDomains : list string;
  requests : list UpdateDomainRequest;
  server : Server
}.
Arguments mkFailoverRun {Server}.
Arguments succeedDomains {Server}.
Arguments failedDomains {Server}.
Arguments requests {Server}.
Arguments server {Server}.

Section Client.

(** The server behind [d.updateDomain] and [d.listDomains] (the
    frontend client or the domain handler): a call returns its result
    and the next state of the server. *)
Variable Server : Type.
Variable updateDomain :
  Server -> UpdateDomainRequest -> option rpcError * Server.
Variable listDomains :
  Server -> ListDomainsRequest -> (rpcError + ListDomainsResponse) * Server.

(** The request of [failover]. *)
Definition failoverRequest (domainName targetCluster : string)
    : UpdateDomainRequest :=
  {| ReqName := domainName; ReqDescription := None; ReqOwnerEmail := None;
     ReqData := ∅; ReqRetentionDays := None; ReqEmitMetric := None;
     BadBinaries := None; HistoryArchivalStatus := None;
     HistoryArchivalURI := None; VisibilityArchivalStatus := None;
     VisibilityArchivalURI := None;
     ReqActiveClusterName := Some targetCluster;
     ReqClusters := []; SecurityToken := ""; DeleteBadBinary := None;
     FailoverTimeoutInSeconds := None |}.

Definition failover (domainName targetCluster : string) (s : Server)
    : option rpcError * Server :=
  updateDomain s (failoverRequest domainName targetCluster).

(** The closure [shouldFailover] of [failoverDomains]. *)
Definition shouldFailover (key targetCluster : string)
    (domain : DescribeDomainResponse) : bool :=
  let isDomainNotActiveInTargetCluster :=
    negb (String.eqb
            (GetActiveClusterName (ReplicationConfiguration domain))
            targetCluster) in
  isDomainNotActiveInTargetCluster &&
  isDomainFailoverManagedByCadence key domain.

(** The loop of [failoverDomains] over the domains. *)
Fixpoint failoverLoop (key targetCluster : string)
    (domains : list DescribeDomainResponse) (run : failoverRun Server)
    : failoverRun Server :=
  match domains with
  | [] => run
  | domain :: rest =>
      if shouldFailover key targetCluster domain then
        let domainName := GetName (DomainInfo_ domain) in
        let (err, s') := failover domainName targetCluster (server run) in
        let sent :=
          (requests run ++ [failoverRequest domainName targetCluster])%list in
        match err with
        | Some _ =>
            failoverLoop key targetCluster rest
              {| succeedDomains := succeedDomains run;
                 failedDomains := (failedDomains run ++ [domainName])%list;
                 requests := sent; server := s' |}
        | None =>
            failoverLoop key targetCluster rest
              {| succeedDomains := (succeedDomains run ++ [domainName])%list;
                 failedDomains := failedDomains run;
                 requests := sent; server := s' |}
        end
      else failoverLoop key targetCluster rest run
  end.

(** [failoverDomains], on the value of the required active cluster
    flag and the domains [getAllDomains] has returned. *)
Definition failoverDomains (key targetCluster : string)
    (domains : list DescribeDomainResponse) (s : Server)
    : failoverRun Server :=
  failoverLoop key targetCluster domains
    {| succeedDomains := []; failedDomains := []; requests := [];
       server := s |}.

(** The loop of [getAllDomains]: the body runs once before the token
    is looked at.  [fuel] bounds the number of requests; [None] stands
    for a loop that has not ended within the bound, [inl] for
    [ErrorAndExit]. *)
Fixpoint getAllDomainsLoop (fuel : nat) (token : string)
    (res : list DescribeDomainResponse) (s : Server)
    : option ((rpcError + list DescribeDomainResponse) * Server) :=
  match fuel with
  | O => None
  | S fuel' =>
      match listDomains s {| PageSize := 200; NextPageToken := token |} with
      | (inl err, s') => Some (inl err, s')
      | (inr listResp, s') =>
          let token' := RespNextPageToken listResp in
          let res' := (res ++ Domains listResp)%list in
          if (0 <? String.length token')%nat
          then getAllDomainsLoop fuel' token' res' s'
          else Some (inr res', s')
      end
  end.

Definition getAllDomains (fuel : nat) (s : Server)
    : option ((rpcError + list DescribeDomainResponse) * Server) :=
  getAllDomainsLoop fuel "" [] s.

(** The pages a server hands out from [token] on: the chain of
    requests ends at the first response without a next page token. *)
Inductive servesFrom : Server -> string -> list (list DescribeDomainResponse)
    -> Server -> Prop :=
| serves_last s token listResp s' :
    listDomains s {| PageSize := 200; NextPageToken := token |}
    = (inr listResp, s') ->
    RespNextPageToken listResp = "" ->
    servesFrom s token [Domains listResp] s'
| serves_more s token listResp s' pages s'' :
    listDomains s {| PageSize := 200; NextPageToken := token |}
    = (inr listResp, s') ->
    RespNextPageToken listResp <> "" ->
    servesFrom s' (RespNextPageToken listResp) pages s'' ->
    servesFrom s token (Domains listResp :: pages) s''.

End Client.

(** [strings.Index(s, substr)]: the position of the first occurrence
    of [substr] in [s], [-1] when there is none. *)
Definition Index (s substr : string) : Z :=
  match String.index 0 substr s with
  | Some n => Z.of_nat n
  | None => -1
  end.

(** How a command ends: it returns, [ErrorAndExit] ends the process,
    or a nil pointer or a negative capacity makes it panic. *)
Inductive exitReason :=
| ExitFlagConflict
| ExitListDomains (err : rpcError)
| ExitJSON.

Inductive ending :=
| Returned
| Exited (r : exitReason)
| Panicked.

(** What [ListDomains] shows: a rendered table, the question of
    [showNextPage] with its answer, or the JSON text. *)
Inductive output (DomainRow : Type) :=
| Rendered (table : list DomainRow)
| Prompted (answer : bool)
| Printed (json : string).
Arguments Rendered {DomainRow}.
Arguments Prompted {DomainRow}.
Arguments Printed {DomainRow}.

(** The tables among the outputs. *)
Definition tables {DomainRow : Type} (outs : list (output DomainRow))
    : list (list DomainRow) :=
  omap (fun o => match o with Rendered t => Some t | _ => None end) outs.

Section Listing.

(** [newDomainRow] reads the fields of a response, the bad binaries in
    the iteration order of a Go map; [ListDomains] only appends the
    row to the table, and the row is kept abstract.  [None] stands for
    the panic of a field read through a nil pointer.  [Marshal] is
    [json.Marshal] on the list of responses. *)
Variable DomainRow : Type.
Variable newDomainRow : DescribeDomainResponse -> option DomainRow.
Variable Marshal : list DescribeDomainResponse -> option string.
Variable DomainStatusRegistered DomainStatusDeprecated : DomainStatus.

(** The loop over the domains for a non-empty prefix;
    [domain.DomainInfo.Name] panics without domain info. *)
Fixpoint prefixLoop (prefix : string) (domains : list DescribeDomainResponse)
    (prefixDomains : list DescribeDomainResponse)
    : option (list DescribeDomainResponse) :=
  match domains with
  | [] => Some prefixDomains
  | domain :: rest =>
      match DomainInfo_ domain with
      | None => None
      | Some info =>
          if (Index (Name info) prefix =? 0)%Z
          then prefixLoop prefix rest (prefixDomains ++ [domain])%list
          else prefixLoop prefix rest prefixDomains
      end
  end.

(** [*domain.DomainInfo.Status]. *)
Definition derefStatus (domain : DescribeDomainResponse)
    : option DomainStatus :=
  match DomainInfo_ domain with
  | None => None
  | Some info => Status info
  end.

(** The loop over the domains when [printAll] is not set: the first
    test reads the status only under [printDeprecated], the second
    only without it. *)
Fixpoint statusLoop (printDeprecated : bool)
    (domains : list DescribeDomainResponse)
    (filteredDomains : list DescribeDomainResponse)
    : option (list DescribeDomainResponse) :=
  match domains with
  | [] => Some filteredDomains
  | domain :: rest =>
      if printDeprecated then
        match derefStatus domain with
        | None => None
        | Some st =>
            if (st =? DomainStatusDeprecated)%Z
            then statusLoop printDeprecated rest
                   (filteredDomains ++ [domain])%list
            else statusLoop printDeprecated rest filteredDomains
        end
      else
        match derefStatus domain with
        | None => None
        | Some st =>
            if (st =? DomainStatusRegistered)%Z
            then statusLoop printDeprecated rest
                   (filteredDomains ++ [domain])%list
            else statusLoop printDeprecated rest filteredDomains
        end
  end.

(** The loop that fills and renders the pages.  [lenDomains] is
    [len(domains)], [i] the index of the head of [rest], [asked] the
    number of questions put so far, [answers] what the user replies
    to each. *)
Fixpoint pageLoop (pageSize lenDomains : Z) (answers : nat -> bool)
    (asked : nat) (i : Z) (table : list DomainRow) (currentPageSize : Z)
    (rest : list DescribeDomainResponse)
    : list (output DomainRow) * ending :=
  match rest with
  | [] => ([Rendered table], Returned)
  | domain :: rest' =>
      match newDomainRow domain with
      | None => ([], Panicked)
      | Some row =>
          let table' := (table ++ [row])%list in
          let currentPageSize' := currentPageSize + 1 in
          if negb (currentPageSize' =? pageSize)%Z then
            pageLoop pageSize lenDomains answers asked (i + 1) table'
              currentPageSize' rest'
          else if (i =? lenDomains - 1)%Z then ([Rendered table'], Returned)
          else if negb (answers asked) then
            ([Rendered table'; Prompted false], Returned)
          else
            let (outs, e) :=
              pageLoop pageSize lenDomains answers (S asked) (i + 1) [] 0
                rest' in
            (Rendered table' :: Prompted true :: outs, e)
      end
  end.

(** [ListDomains], on the values of its flags and on what
    [getAllDomains] has returned. *)
Definition ListDomains (pageSize : Z) (prefix : string)
    (printAll printDeprecated printJSON : bool)
    (fetched : rpcError + list DescribeDomainResponse)
    (answers : nat -> bool) : list (output DomainRow) * ending :=
  if printAll && printDeprecated then ([], Exited ExitFlagConflict)
  else
    match fetched with
    | inl err => ([], Exited (ExitListDomains err))
    | inr all =>
        match (if (0 <? String.length prefix)%nat
               then prefixLoop prefix all [] else Some all) with
        | None => ([], Panicked)
        | Some domains =>
            match (if printAll then Some domains
                   else statusLoop printDeprecated domains []) with
            | None => ([], Panicked)
            | Some filteredDomains =>
                if printJSON then
                  match Marshal filteredDomains with
                  | Some out => ([Printed out], Returned)
                  | None => ([], Exited ExitJSON)
                  end
                else if (pageSize <? 0)%Z then ([], Panicked)
                else
                  pageLoop pageSize (Z.of_nat (List.length domains))
                    answers 0 0 [] 0 filteredDomains
            end
        end
    end.

(** The domains [ListDomains] is meant to show: the name starts with
    the prefix, and the status is the one asked for. *)
Definition hasPrefix (prefix : string) (domain : DescribeDomainResponse)
    : bool :=
  String.prefix prefix (GetName (DomainInfo_ domain)).

Definition statusAsked (printAll printDeprecated : bool)
    (domain : DescribeDomainResponse) : bool :=
  printAll ||
  match derefStatus domain with
  | Some st =>
      (st =? (if printDeprecated then DomainStatusDeprecated
              else DomainStatusRegistered))%Z
  | None => false
  end.

Definition listed (prefix : string) (printAll printDeprecated : bool)
    (domain : DescribeDomainResponse) : bool :=
  hasPrefix prefix domain && statusAsked printAll printDeprecated domain.

(** A response with domain info and a status. *)
Definition hasStatus (domain : DescribeDomainResponse) : bool :=
  match derefStatus domain with Some _ => true | None => false end.

End Listing.

(** The flags [UpdateDomain] reads.  Their names are string constants
    of package [cli], one for each flag. *)
Inductive Flag :=
| FlagActiveClusterName | FlagFailoverType | FlagFailoverTimeout
| FlagDescription | FlagOwnerEmail | FlagDomainData | FlagRetentionDays
| FlagClusters | FlagAddBadBinary | FlagReason | FlagRemoveBadBinary
| FlagHistoryArchivalStatus | FlagHistoryArchivalURI
| FlagVisibilityArchivalStatus | FlagVisibilityArchivalURI
| FlagSecurityToken.

(** What the commands ask of a [cli.Context]: [c.IsSet], [c.String],
    [c.Int], [c.Args] and, for the domain data, the string map behind
    [c.Generic]. *)
Record Context := mkContext {
  IsSet : Flag -> bool;
  String_ : Flag -> string;
  Int : Flag -> Z;
  Args : list string;
  Generic : Flag -> gmap string string
}.

(** The conversion [int32(x)] of an [int]. *)
Definition toInt32 (x : Z) : Z := (x + 2 ^ 31) mod 2 ^ 32 - 2 ^ 31.

Definition gracefulFailoverType : string := "grace".

(** [archivalStatus]; [inl] is [ErrorAndExit] for a value that is
    neither [disabled] nor [enabled]. *)
Definition archivalStatus (c : Context) (statusFlagName : Flag)
    : Flag + option ArchivalStatus :=
  if IsSet c statusFlagName then
    if String.eqb (String_ c statusFlagName) "disabled"
    then inr (Some ArchivalStatusDisabled)
    else if String.eqb (String_ c statusFlagName) "enabled"
    then inr (Some ArchivalStatusEnabled)
    else inl statusFlagName
  else inr None.

(** The calls [UpdateDomain] makes through [d.describeDomain] and
    [d.updateDomain], and how it ends. *)
Inductive rpcCall :=
| CallDescribe (name : string)
| CallUpdate (request : UpdateDomainRequest).

Inductive updateEnding :=
| UpdateDone
| ExitOperationFailed (err : rpcError)
| ExitDoesNotExist
| ExitNoReason
| ExitInvalidOption (flag : Flag).

Record updateRun (Server : Type) := mkUpdateRun {
  calls : list rpcCall;
  updateEnd : updateEnding;
  updateServer : Server
}.
Arguments mkUpdateRun {Server}.
Arguments calls {Server}.
Arguments updateEnd {Server}.
Arguments updateServer {Server}.

(** The branch on the type of an error: the type assertion to
    [EntityNotExistsError]. *)
Definition exitFor (err : rpcError) : updateEnding :=
  match err with
  | EntityNotExistsError => ExitDoesNotExist
  | OtherError _ => ExitOperationFailed err
  end.

(** [updateRequest.SecurityToken = securityToken]. *)
Definition withSecurityToken (r : UpdateDomainRequest) (token : string)
    : UpdateDomainRequest :=
  {| ReqName := ReqName r; ReqDescription := ReqDescription r;
     ReqOwnerEmail := ReqOwnerEmail r; ReqData := ReqData r;
     ReqRetentionDays := ReqRetentionDays r;
     ReqEmitMetric := ReqEmitMetric r; BadBinaries := BadBinaries r;
     HistoryArchivalStatus := HistoryArchivalStatus r;
     HistoryArchivalURI := HistoryArchivalURI r;
     VisibilityArchivalStatus := VisibilityArchivalStatus r;
     VisibilityArchivalURI := VisibilityArchivalURI r;
     ReqActiveClusterName := ReqActiveClusterName r;
     ReqClusters := ReqClusters r; SecurityToken := token;
     DeleteBadBinary := DeleteBadBinary r;
     FailoverTimeoutInSeconds := FailoverTimeoutInSeconds r |}.

(** The clusters of the request: the value of the flag, then the
    remaining arguments of the command line. *)
Definition clustersOf (c : Context) : list string :=
  if IsSet c FlagClusters then String_ c FlagClusters :: Args c else [].

Section Update.

(** The server behind [d.describeDomain] and [d.updateDomain];
    [nilValue] is what [Value] returns for the nil [*flag.StringMap]
    of a domain data flag that is not set. *)
Variable Server : Type.
Variable describeDomain :
  Server -> string -> (rpcError + DescribeDomainResponse) * Server.
Variable updateDomain :
  Server -> UpdateDomainRequest -> option rpcError * Server.
Variable nilValue : gmap string string.

(** The end of [UpdateDomain]: the security token is set and the
    request is sent. *)
Definition sendUpdate (c : Context) (before : list rpcCall)
    (updateRequest : UpdateDomainRequest) (s : Server) : updateRun Server :=
  let request :=
    withSecurityToken updateRequest (String_ c FlagSecurityToken) in
  let (err, s') := updateDomain s request in
  {| calls := (before ++ [CallUpdate request])%list;
     updateEnd := match err with
                  | Some e => exitFor e
                  | None => UpdateDone
                  end;
     updateServer := s' |}.

(** The request built from the described domain and the flags;
    [inl] is an [ErrorAndExit] on the way. *)
Definition mergedRequest (c : Context) (domainName operator : string)
    (resp : DescribeDomainResponse) : updateEnding + UpdateDomainRequest :=
  let description :=
    if IsSet c FlagDescription then String_ c FlagDescription
    else GetDescription (DomainInfo_ resp) in
  let ownerEmail :=
    if IsSet c FlagOwnerEmail then String_ c FlagOwnerEmail
    else GetOwnerEmail (DomainInfo_ resp) in
  let domainData :=
    if IsSet c FlagDomainData then Generic c FlagDomainData else nilValue in
  let retentionDays :=
    if IsSet c FlagRetentionDays then toInt32 (Int c FlagRetentionDays)
    else GetWorkflowExecutionRetentionPeriodInDays (Configuration resp) in
  let emitMetric := GetEmitMetric (Configuration resp) in
  if IsSet c FlagAddBadBinary && negb (IsSet c FlagReason)
  then inl ExitNoReason
  else
    let binBinaries :=
      if IsSet c FlagAddBadBinary then
        Some {[ String_ c FlagAddBadBinary :=
                  {| Reason := String_ c FlagReason; Operator := operator |} ]}
      else None in
    let badBinaryToDelete :=
      if IsSet c FlagRemoveBadBinary
      then Some (String_ c FlagRemoveBadBinary) else None in
    match archivalStatus c FlagHistoryArchivalStatus with
    | inl flag => inl (ExitInvalidOption flag)
    | inr historyStatus =>
        match archivalStatus c FlagVisibilityArchivalStatus with
        | inl flag => inl (ExitInvalidOption flag)
        | inr visibilityStatus =>
            inr {| ReqName := domainName;
                   ReqDescription := Some description;
                   ReqOwnerEmail := Some ownerEmail;
                   ReqData := domainData;
                   ReqRetentionDays := Some retentionDays;
                   ReqEmitMetric := Some emitMetric;
                   BadBinaries := binBinaries;
                   HistoryArchivalStatus := historyStatus;
                   HistoryArchivalURI :=
                     Some (String_ c FlagHistoryArchivalURI);
                   VisibilityArchivalStatus := visibilityStatus;
                   VisibilityArchivalURI :=
                     Some (String_ c FlagVisibilityArchivalURI);
                   ReqActiveClusterName := None;
                   ReqClusters := clustersOf c;
                   SecurityToken := "";
                   DeleteBadBinary := badBinaryToDelete;
                   FailoverTimeoutInSeconds := None |}
        end
    end.

(** The request of the failover branch. *)
Definition failoverOnlyRequest (c : Context) (domainName : string)
    : UpdateDomainRequest :=
  let activeCluster := String_ c FlagActiveClusterName in
  let failoverTimeout :=
    if String.eqb (String_ c FlagFailoverType) gracefulFailoverType
    then Some (toInt32 (Int c FlagFailoverTimeout)) else None in
  {| ReqName := domainName; ReqDescription := None; ReqOwnerEmail := None;
     ReqData := ∅; ReqRetentionDays := None; ReqEmitMetric := None;
     BadBinaries := None; HistoryArchivalStatus := None;
     HistoryArchivalURI := None; VisibilityArchivalStatus := None;
     VisibilityArchivalURI := None;
     ReqActiveClusterName := Some activeCluster;
     ReqClusters := []; SecurityToken := ""; DeleteBadBinary := None;
     FailoverTimeoutInSeconds := failoverTimeout |}.

(** [UpdateDomain]; [domainName] is the value of the required domain
    option, [operator] what [getCurrentUserFromEnv] returns. *)
Definition UpdateDomain (c : Context) (domainName operator : string)
    (s : Server) : updateRun Server :=
  if IsSet c FlagActiveClusterName then
    sendUpdate c [] (failoverOnlyRequest c domainName) s
  else
    match describeDomain s domainName with
    | (inl err, s') =>
        {| calls := [CallDescribe domainName]; updateEnd := exitFor err;
           updateServer := s' |}
    | (inr resp, s') =>
        match mergedRequest c domainName operator resp with
        | inl e =>
            {| calls := [CallDescribe domainName]; updateEnd := e;
               updateServer := s' |}
        | inr updateRequest =>
            sendUpdate c [CallDescribe domainName] updateRequest s'
        end
    end.

End Update.

(** Two domains and a server that hands them out on two pages. *)
Definition sampleDomain (name cluster managed : string)
    : DescribeDomainResponse :=
  {| DomainInfo_ :=
       Some {| Name := name; Status := Some 0; Description := "";
               OwnerEmail := ""; Data := {[ "IsManagedByCadence" := managed ]};
               UUID := "" |};
     Configuration := None;
     ReplicationConfiguration :=
       Some {| ActiveClusterName := cluster; Clusters := [cluster] |};
     IsGlobalDomain := true |}.

Definition twoPages (s : unit) (request : ListDomainsRequest)
    : (rpcError + ListDomainsResponse) * unit :=
  if String.eqb (NextPageToken request) "" then
    (inr {| Domains := [sampleDomain "orders" "dc1" " True "];
            RespNextPageToken := "next" |}, s)
  else
    (inr {| Domains := [sampleDomain "billing" "dc2" "true"];
            RespNextPageToken := "" |}, s).

(** A command line that sets the active cluster and a description, a
    command line that sets the owner only, and a server that knows
    every domain and accepts every update. *)
Definition failoverContext : Context :=
  {| IsSet := fun f =>
       match f with
       | FlagActiveClusterName | FlagDescription => true
       | _ => false
       end;
     String_ := fun f =>
       match f with
       | FlagActiveClusterName => "dc2"
       | FlagDescription => "moved"
       | FlagFailoverType => "grace"
       | FlagSecurityToken => "token"
       | _ => ""
       end;
     Int := fun f => match f with FlagFailoverTimeout => 30 | _ => 0 end;
     Args := [];
     Generic := fun _ => ∅ |}.

Definition ownerContext : Context :=
  {| IsSet := fun f => match f with FlagOwnerEmail => true | _ => false end;
     String_ := fun f =>
       match f with FlagOwnerEmail => "team@example.com" | _ => "" end;
     Int := fun _ => 0;
     Args := [];
     Generic := fun _ => ∅ |}.

Definition knownDomain (name : string) : DescribeDomainResponse :=
  {| DomainInfo_ :=
       Some {| Name := name; Status := Some 0; Description := "orders";
               OwnerEmail := "old@example.com"; Data := ∅; UUID := "" |};
     Configuration :=
       Some {| WorkflowExecutionRetentionPeriodInDays := 7;
               EmitMetric := true |};
     ReplicationConfiguration := None;
     IsGlobalDomain := true |}.

Definition describeAny (s : unit) (name : string)
    : (rpcError + DescribeDomainResponse) * unit :=
  (inr (knownDomain name), s).

Definition acceptUpdate (s : unit) (request : UpdateDomainRequest)
    : option rpcError * unit :=
  (None, s).

(** A deprecated domain, rows that show the name of a domain, and a
    JSON encoder that lists the names. *)
Definition deprecatedDomain (name : string) : DescribeDomainResponse :=
  {| DomainInfo_ :=
       Some {| Name := name; Status := Some 1; Description := "";
               OwnerEmail := ""; Data := ∅; UUID := "" |};
     Configuration := None; ReplicationConfiguration := None;
     IsGlobalDomain := false |}.

(** A response whose domain info has no status. *)
Definition noStatusDomain : DescribeDomainResponse :=
  {| DomainInfo_ :=
       Some {| Name := "draft"; Status := None; Description := "";
               OwnerEmail := ""; Data := ∅; UUID := "" |};
     Configuration := None; ReplicationConfiguration := None;
     IsGlobalDomain := false |}.

Definition sampleAll : list DescribeDomainResponse :=
  [ sampleDomain "orders" "dc1" "true"; deprecatedDomain "old-orders";
    sampleDomain "billing" "dc2" "true"; sampleDomain "ops" "dc1" "false" ].

Definition nameRow (domain : DescribeDomainResponse) : option string :=
  Some (GetName (DomainInfo_ domain)).

Definition nameList (domains : list DescribeDomainResponse) : option string :=
  Some (CliStart.Join ((fun d => GetName (DomainInfo_ d)) <$> domains) ",").

End DomainCli.

(** ** The client factory of the CLI *)

Module Factory.

Local Open Scope string_scope.

(** The outbound of the dispatcher: over gRPC to one address, over
    gRPC with a TLS dialer that trusts the given certificate, or over
    TChannel. *)
Inductive Outbound :=
| GrpcSingleOutbound (hostPort : string)
| GrpcTLSOutbound (hostPort : string) (caCert : string)
| ChannelSingleOutbound (hostPort : string).

Definition target (o : Outbound) : string :=
  match o with
  | GrpcSingleOutbound h | GrpcTLSOutbound h _ | ChannelSingleOutbound h => h
  end.

(** The [yarpc.Config] the dispatcher is built from. *)
Record Dispatcher := mkDispatcher {
  Name : string;
  Service : string;
  Unary : Outbound
}.

Definition cadenceClientName : string := "cadence-client".
Definition cadenceFrontendService : string := "cadence-frontend".

(** The fields of [clientFactory] that [ensureDispatcher] writes. *)
Record clientFactory := mkClientFactory {
  hostPort : string;
  dispatcher : option Dispatcher
}.

(** What [ensureDispatcher] reads from the command line: the
    transport flag, the result of [b.addressFlagFunc(c)] and the path
    of the TLS certificate. *)
Record Flags := mkFlags {
  transport : string;
  address : string;
  tlsCertPath : string
}.

(** What it asks of the system: [ioutil.ReadFile] ([None] for an
    error), [AppendCertsFromPEM], whether
    [tchannel.NewChannelTransport] and [dispatcher.Start] succeed. *)
Record System := mkSystem {
  ReadFile : string -> option string;
  AppendCertsFromPEM : string -> bool;
  NewChannelTransport : bool;
  Start : Dispatcher -> bool
}.

(** The calls of [b.logger.Fatal]. *)
Inductive fatal :=
| FatalLoadCertificate
| FatalAddCertificate
| FatalCreateChannel
| FatalStart.

Section Ports.

(** The constants [grpcTransport], [tchannelPort] and [grpcPort] of
    package [cli]. *)
Variable grpcTransport tchannelPort grpcPort : string.

Definition ensureDispatcher (sys : System) (c : Flags) (b : clientFactory)
    : fatal + clientFactory :=
  match dispatcher b with
  | Some _ => inr b
  | None =>
      let shouldUseGrpc := String.eqb (transport c) grpcTransport in
      let hostPort1 := if shouldUseGrpc then grpcPort else tchannelPort in
      let hostPort2 :=
        if negb (String.eqb (address c) "") then address c else hostPort1 in
      let outbounds :=
        if shouldUseGrpc then
          if negb (String.eqb (tlsCertPath c) "") then
            match ReadFile sys (tlsCertPath c) with
            | None => inl FatalLoadCertificate
            | Some caCert =>
                if negb (AppendCertsFromPEM sys caCert)
                then inl FatalAddCertificate
                else inr (GrpcTLSOutbound hostPort2 caCert)
            end
          else inr (GrpcSingleOutbound hostPort2)
        else if NewChannelTransport sys
             then inr (ChannelSingleOutbound hostPort2)
             else inl FatalCreateChannel in
      match outbounds with
      | inl f => inl f
      | inr out =>
          let d := {| Name := cadenceClientName;
                      Service := cadenceFrontendService; Unary := out |} in
          if Start sys d
          then inr {| hostPort := hostPort2; dispatcher := Some d |}
          else inl FatalStart
      end
  end.

(** The client [ServerFrontendClient] and [ServerAdminClient] build on
    the dispatcher of the factory: a gRPC client when the transport
    flag of this call asks for it, a Thrift client otherwise. *)
Inductive clientKind := GRPCClient | ThriftClient.

Definition serverClient (sys : System) (c : Flags) (b : clientFactory)
    : fatal + (clientKind * option Dispatcher * clientFactory) :=
  match ensureDispatcher sys c b with
  | inl f => inl f
  | inr b' =>
      inr (if String.eqb (transport c) grpcTransport
           then GRPCClient else ThriftClient,
           dispatcher b', b')
  end.

End Ports.

(** A system in which everything succeeds, and two command lines. *)
Definition goodSystem : System :=
  {| ReadFile := fun _ => Some "pem"; AppendCertsFromPEM := fun _ => true;
     NewChannelTransport := true; Start := fun _ => true |}.

Definition grpcFlags : Flags :=
  {| transport := "grpc"; address := ""; tlsCertPath := "" |}.

Definition addressFlags : Flags :=
  {| transport := "tchannel"; address := "10.0.0.1:7933";
     tlsCertPath := "/etc/ca.pem" |}.

End Factory.

(** * Properties *)

(** ** Queue types *)

Section QueueTypes.
Import TaskModel.

Lemma queueTypes_values : queueTypes = [1; 2; 3; 4; 5; 6].
Proof. reflexivity. Qed.

Lemma isDeclaredQueueType_range (q : QueueType) :
  isDeclaredQueueType q = true <-> 1 <= q <= 6.
Proof.
  unfold isDeclaredQueueType. rewrite bool_decide_eq_true, queueTypes_values.
  rewrite !elem_of_cons, elem_of_nil. lia.
Qed.

(** C7: the [QueueType] constants are six, in the order active
    transfer, standby transfer, active timer, standby timer,
    replication, cross cluster; they are the consecutive integers 1
    to 6, pairwise distinct, and the zero value is none of them. *)
Theorem queue_type_constants :
  QueueTypeActiveTransfer = 1 /\ QueueTypeStandbyTransfer = 2 /\
  QueueTypeActiveTimer = 3 /\ QueueTypeStandbyTimer = 4 /\
  QueueTypeReplication = 5 /\ QueueTypeCrossCluster = 6 /\
  List.length queueTypes = 6%nat /\
  NoDup queueTypes /\
  (forall q, isDeclaredQueueType q = true <-> 1 <= q <= 6) /\
  isDeclaredQueueType 0 = false.
Proof.
  split_and!; try reflexivity.
  - rewrite queueTypes_values.
    apply (bool_decide_unpack (NoDup [1; 2; 3; 4; 5; 6])). by vm_compute.
  - apply isDeclaredQueueType_range.
Qed.

End QueueTypes.

(** ** The key order *)

Section KeyOrder.
Import TaskModel.

Lemma Less_spec (k1 k2 : Key) :
  Less k1 k2 = true <->
  visibilityTimestamp k1 < visibilityTimestamp k2 \/
  (visibilityTimestamp k1 = visibilityTimestamp k2 /\ taskID k1 < taskID k2).
Proof.
  unfold Less.
  destruct (Z.eqb_spec (visibilityTimestamp k1) (visibilityTimestamp k2));
    rewrite Z.ltb_lt; lia.
Qed.

Lemma Less_false_spec (k1 k2 : Key) :
  Less k1 k2 = false <->
  visibilityTimestamp k2 < visibilityTimestamp k1 \/
  (visibilityTimestamp k1 = visibilityTimestamp k2 /\ taskID k2 <= taskID k1).
Proof.
  rewrite <- not_true_iff_false, Less_spec. lia.
Qed.

Lemma Less_irrefl (k : Key) : Less k k = false.
Proof. apply Less_false_spec. lia. Qed.

Lemma Less_trans (k1 k2 k3 : Key) :
  Less k1 k2 = true -> Less k2 k3 = true -> Less k1 k3 = true.
Proof. rewrite !Less_spec. lia. Qed.

Lemma Less_asym (k1 k2 : Key) : Less k1 k2 = true -> Less k2 k1 = false.
Proof. rewrite Less_spec, Less_false_spec. lia. Qed.

Lemma Less_total (k1 k2 : Key) :
  k1 <> k2 -> Less k1 k2 = true \/ Less k2 k1 = true.
Proof.
  intros Hne. rewrite !Less_spec.
  destruct k1 as [v1 i1], k2 as [v2 i2]; simpl.
  destruct (decide (v1 = v2)) as [->|]; [|lia].
  destruct (decide (i1 = i2)) as [->|]; [congruence|lia].
Qed.

Lemma insertByKey_perm (x : Task) (l : list Task) :
  insertByKey x l ≡ₚ x :: l.
Proof.
  induction l as [|y l IH]; simpl; [done|].
  destruct (taskLess y x); [|done].
  rewrite IH. apply Permutation_swap.
Qed.

Lemma sortByKey_perm (l : list Task) : sortByKey l ≡ₚ l.
Proof.
  induction l as [|x l IH]; simpl; [done|].
  by rewrite insertByKey_perm, IH.
Qed.

Lemma insertByKey_HdRel (y x : Task) (l : list Task) :
  notAfter y x -> HdRel notAfter y l -> HdRel notAfter y (insertByKey x l).
Proof.
  intros Hyx Hl. destruct l as [|z l]; simpl; [by constructor|].
  destruct (taskLess z x); constructor; [|done].
  by inversion Hl.
Qed.

Lemma insertByKey_sorted (x : Task) (l : list Task) :
  Sorted notAfter l -> Sorted notAfter (insertByKey x l).
Proof.
  induction 1 as [|y l Hs IH Hhd]; simpl.
  - by repeat constructor.
  - destruct (taskLess y x) eqn:Hyx.
    + constructor; [done|]. apply insertByKey_HdRel; [|done].
      by apply Less_asym.
    + constructor; [by constructor|]. by constructor.
Qed.

Lemma sortByKey_sorted (l : list Task) : Sorted notAfter (sortByKey l).
Proof.
  induction l as [|x l IH]; simpl; [constructor|].
  by apply insertByKey_sorted.
Qed.

Lemma insertByKey_head (x : Task) (l : list Task) :
  HdRel notAfter x l -> insertByKey x l = x :: l.
Proof.
  destruct 1 as [|y l Hxy]; simpl; [done|].
  unfold notAfter in Hxy. by rewrite Hxy.
Qed.

Lemma sortByKey_fixed (l : list Task) : Sorted notAfter l -> sortByKey l = l.
Proof.
  induction 1 as [|x l Hs IH Hhd]; simpl; [done|].
  rewrite IH. by apply insertByKey_head.
Qed.

Lemma sorted_strict (l : list Task) :
  Sorted notAfter l -> NoDup (keyOf <$> l) ->
  Sorted (fun x y => taskLess x y = true) l.
Proof.
  induction 1 as [|x l Hs IH Hhd]; intros Hnd; [constructor|].
  rewrite fmap_cons in Hnd. apply NoDup_cons in Hnd as [Hx Hnd].
  constructor; [by apply IH|].
  destruct Hhd as [|y l Hxy]; constructor.
  destruct (Less_total (keyOf x) (keyOf y)) as [H|H]; [|done|].
  - intros Heq. apply Hx. rewrite Heq, fmap_cons. set_solver.
  - unfold notAfter, taskLess in Hxy. congruence.
Qed.

(** C1: on tasks with distinct (visibility timestamp, task ID) pairs
    the key order compares the timestamps first and the task IDs on a
    tie; it is irreflexive, transitive, antisymmetric and total, with
    exactly one of [a.Less(b)] and [b.Less(a)]; sorting a list of such
    tasks by key gives a permutation in strictly increasing key order,
    and sorting again changes nothing. *)
Theorem key_less_strict_total_order (a b : Task) (l : list Task) :
  keyOf a <> keyOf b ->
  NoDup (keyOf <$> l) ->
  (taskLess a b = true <->
     GetVisibilityTimestamp a < GetVisibilityTimestamp b \/
     (GetVisibilityTimestamp a = GetVisibilityTimestamp b /\
      GetTaskID a < GetTaskID b)) /\
  taskLess a a = false /\ taskLess b b = false /\
  (forall c, taskLess a b = true -> taskLess b c = true ->
             taskLess a c = true) /\
  (taskLess a b = true -> taskLess b a = false) /\
  (taskLess a b = true \/ taskLess b a = true) /\
  ~ (taskLess a b = true /\ taskLess b a = true) /\
  sortByKey l ≡ₚ l /\
  Sorted (fun x y => taskLess x y = true) (sortByKey l) /\
  sortByKey (sortByKey l) = sortByKey l.
Proof.
  intros Hab Hl. unfold taskLess. split_and!.
  - apply Less_spec.
  - apply Less_irrefl.
  - apply Less_irrefl.
  - intros c. apply Less_trans.
  - apply Less_asym.
  - by apply Less_total.
  - intros [H1 H2]. apply Less_asym in H1. congruence.
  - apply sortByKey_perm.
  - apply sorted_strict; [apply sortByKey_sorted|].
    by rewrite sortByKey_perm.
  - apply sortByKey_fixed, sortByKey_sorted.
Qed.

Lemma key_less_strict_total_order_witness :
  let a := Pipeline.Initializer QueueTypeActiveTimer 1
             (Pipeline.mkInfo 1 5 0 100 "wf" "run" "dom") in
  let b := Pipeline.Initializer QueueTypeActiveTimer 1
             (Pipeline.mkInfo 1 3 0 200 "wf" "run" "dom") in
  let c := Pipeline.Initializer QueueTypeActiveTimer 1
             (Pipeline.mkInfo 1 4 0 100 "wf" "run" "dom") in
  taskLess a b = true /\ taskLess b a = false /\
  sortByKey [b; a; c] = [c; a; b] /\
  sortByKey (sortByKey [b; a; c]) = sortByKey [b; a; c].
Proof.
  intros a b c.
  assert (Hab : keyOf a <> keyOf b) by (by vm_compute).
  assert (Hl : NoDup (keyOf <$> [b; a; c])).
  { apply (bool_decide_unpack (NoDup (keyOf <$> [b; a; c]))). by vm_compute. }
  destruct (key_less_strict_total_order a b [b; a; c] Hab Hl)
    as (Hdef & _ & _ & _ & Hasym & _ & _ & _ & _ & Hidem).
  split_and!.
  - apply Hdef. vm_compute. by left.
  - apply Hasym, Hdef. vm_compute. by left.
  - reflexivity.
  - exact Hidem.
Defined.

End KeyOrder.

(** ** The start command *)

Section StartCommand.
Import Cli.
Local Open Scope string_scope.

Lemma splitFrom_length (sep : ascii) (s tok : string) :
  (1 <= List.length (splitFrom sep s tok))%nat.
Proof.
  revert tok. induction s as [|c s IH]; intros tok; simpl; [lia|].
  destruct (Ascii.eqb c sep); simpl; [lia|apply IH].
Qed.

Lemma isValidService_spec (validServices : list string) (inp : string) :
  isValidService validServices inp = true <-> inp ∈ validServices.
Proof.
  induction validServices as [|s rest IH]; simpl.
  - rewrite elem_of_nil. split; [done|tauto].
  - rewrite elem_of_cons. destruct (String.eqb_spec s inp) as [->|Hne].
    + split; auto.
    + rewrite IH. split; [auto|]. intros [->|H]; [done|exact H].
Qed.

Lemma checkTokens_invalid (validServices : list string) (val : string)
    (tokens : list string) (f : fatal) :
  checkTokens validServices val tokens = Some f ->
  exists t, f = FatalInvalidService t val /\ t ∈ tokens /\
            isValidService validServices t = false.
Proof.
  induction tokens as [|t ts IH]; simpl; [done|].
  destruct (isValidService validServices t) eqn:Ht; simpl.
  - intros (t' & -> & Hin & Hv)%IH. exists t'. set_solver.
  - intros [= <-]. exists t. set_solver.
Qed.

Lemma trimLeft_allSpace (s : string) : allSpace s = true -> trimLeft s = "".
Proof.
  induction s as [|c s IH]; simpl; [done|].
  intros [Hc Hs]%andb_true_iff. rewrite Hc. by apply IH.
Qed.

Lemma TrimSpace_allSpace (s : string) : allSpace s = true -> TrimSpace s = "".
Proof. intros H. unfold TrimSpace. by rewrite (trimLeft_allSpace s H). Qed.

Example Split_tokens : Split "a,,b," "," = ["a"; ""; "b"; ""].
Proof. reflexivity. Qed.

Example getServices_two :
  getServices sampleServices " frontend,history "
  = inr ["frontend"; "history"].
Proof. reflexivity. Qed.

Example getServices_inner_space :
  getServices sampleServices "frontend, history"
  = inl (FatalInvalidService " history" "frontend, history").
Proof. reflexivity. Qed.

Example constructPathIfNeed_relative :
  constructPathIfNeed unixIsAbs "/srv/cadence" "config"
  = "/srv/cadence/config".
Proof. reflexivity. Qed.

Example constructPathIfNeed_absolute :
  constructPathIfNeed unixIsAbs "/srv/cadence" "/etc/cadence"
  = "/etc/cadence".
Proof. reflexivity. Qed.

(** C8: [constructPathIfNeed(dir, file)] is [file] itself when [file]
    is an absolute path, and [dir + "/" + file] otherwise, for the
    path test of any operating system and for the one of Unix. *)
Theorem constructPathIfNeed_spec (IsAbs : string -> bool) (dir file : string) :
  ((IsAbs file = true /\ constructPathIfNeed IsAbs dir file = file) \/
   (IsAbs file = false /\
    constructPathIfNeed IsAbs dir file = dir ++ "/" ++ file)) /\
  ((unixIsAbs file = true /\ constructPathIfNeed unixIsAbs dir file = file) \/
   (unixIsAbs file = false /\
    constructPathIfNeed unixIsAbs dir file = dir ++ "/" ++ file)) /\
  constructPathIfNeed unixIsAbs dir (String "/" file) = String "/" file.
Proof.
  unfold constructPathIfNeed. split_and!.
  - destruct (IsAbs file); simpl; auto.
  - destruct (unixIsAbs file); simpl; auto.
  - reflexivity.
Qed.

(** C9: in [getServices] the branch "list of services is empty" is
    never taken: splitting any value on "," gives at least one token;
    when the empty string is not a valid service name, an empty value
    and a value of white space only are refused by the check of the
    tokens, as the invalid service [""]. *)
Theorem getServices_empty_branch_unreachable
    (validServices : list string) (flag : string) :
  "" ∉ validServices ->
  (1 <= List.length (Split (TrimSpace flag) ","))%nat /\
  getServices validServices flag <> inl FatalEmptyServiceList /\
  isValidService validServices "" = false /\
  (allSpace flag = true ->
   getServices validServices flag = inl (FatalInvalidService "" "")).
Proof.
  intros Hempty.
  assert (Hinv : isValidService validServices "" = false).
  { apply not_true_iff_false. by rewrite isValidService_spec. }
  split_and!.
  - apply splitFrom_length.
  - unfold getServices.
    pose proof (splitFrom_length "," (TrimSpace flag) "") as Hlen.
    unfold Split. destruct (splitFrom "," (TrimSpace flag) "") as [|t ts];
      simpl in *; [lia|].
    destruct (isValidService validServices t); simpl; [|done].
    destruct (checkTokens validServices (TrimSpace flag) ts) as [f|] eqn:Hc;
      [|done].
    by apply checkTokens_invalid in Hc as (t' & -> & _).
  - exact Hinv.
  - intros Hsp. unfold getServices. rewrite (TrimSpace_allSpace flag Hsp).
    simpl. by rewrite Hinv.
Qed.

Lemma getServices_empty_branch_unreachable_witness :
("" ∉ sampleServices) /\
  getServices sampleServices "  " = inl (FatalInvalidService "" "") /\
  getServices sampleServices "" <> inl FatalEmptyServiceList.
Proof.
  assert (H : "" ∉ sampleServices).
  { apply (bool_decide_unpack ("" ∉ sampleServices)). by vm_compute. }
  destruct (getServices_empty_branch_unreachable sampleServices "  " H)
    as (_ & _ & _ & Hws).
  destruct (getServices_empty_branch_unreachable sampleServices "" H)
    as (_ & Hne & _ & _).
  split_and!; [exact H|by apply Hws|exact Hne].
Defined.

End StartCommand.

(** ** The funcorder analyzer *)

Section FuncorderFacts.
Import Funcorder.
Local Open Scope string_scope.

Lemma preserves_refl (touched : list nat) (l : list Decl) :
  preserves touched l l.
Proof. by repeat split. Qed.

Lemma preserves_trans (touched : list nat) (l1 l2 l3 : list Decl) :
  preserves touched l1 l2 -> preserves touched l2 l3 ->
  preserves touched l1 l3.
Proof.
  intros (Hp1 & Hl1 & Hf1) (Hp2 & Hl2 & Hf2). split_and!.
  - by rewrite Hp2.
  - congruence.
  - intros k Hk. rewrite Hf2, Hf1; done.
Qed.

Lemma preserves_weaken (t1 t2 : list nat) (l l' : list Decl) :
  t1 ⊆ t2 -> preserves t1 l l' -> preserves t2 l l'.
Proof.
  intros Hsub (Hp & Hl & Hf). split_and!; [done..|].
  intros k Hk. apply Hf. set_solver.
Qed.

Lemma swapDecls_preserves (a b : nat) (l : list Decl) :
  (a < List.length l)%nat -> (b < List.length l)%nat ->
  exists l', swapDecls a b l = Some l' /\ preserves [a; b] l l'.
Proof.
  intros [x Hx]%lookup_lt_is_Some_2 [y Hy]%lookup_lt_is_Some_2.
  unfold swapDecls. rewrite Hx, Hy. eexists. split; [done|]. split_and!.
  - by apply Permutation_insert_swap.
  - by rewrite !length_insert.
  - intros k Hk. rewrite !list_lookup_insert_ne; [done|set_solver..].
Qed.

Lemma innerLoop_preserves (recv1 : recvFunc) (rest : list recvFunc)
    (l : list Decl) :
  (Index recv1 < List.length l)%nat ->
  Forall (fun r => (Index r < List.length l)%nat) rest ->
  exists l', innerLoop recv1 rest l = Some l' /\
             preserves (Index <$> recv1 :: rest) l l'.
Proof.
  intros H1 Hrest. revert l H1 Hrest.
  induction rest as [|recv2 rest IH]; intros l H1 Hrest; simpl.
  - eexists. split; [done|apply preserves_refl].
  - apply Forall_cons in Hrest as [H2 Hrest].
    assert (Hstep : forall l1, preserves [Index recv1; Index recv2] l l1 ->
      exists l', innerLoop recv1 rest l1 = Some l' /\
                 preserves (Index recv1 :: Index recv2 :: (Index <$> rest))
                   l l').
    { intros l1 Hl1. pose proof Hl1 as (_ & Hlen & _).
      destruct (IH l1) as (l' & Hrun & Hl').
      - by rewrite Hlen.
      - eapply Forall_impl; [exact Hrest|]. intros r Hr. simpl in *.
        by rewrite Hlen.
      - exists l'. split; [done|].
        eapply preserves_trans;
          (eapply preserves_weaken; [|eassumption]); set_solver. }
    destruct (String.compare (FuncName recv1) (FuncName recv2));
      try (apply Hstep, preserves_refl).
    destruct (swapDecls_preserves (Index recv1) (Index recv2) l H1 H2)
      as (l1 & -> & Hl1).
    by apply Hstep.
Qed.

Lemma outerLoop_preserves (funcList : list recvFunc) (l : list Decl) :
  Forall (fun r => (Index r < List.length l)%nat) funcList ->
  exists l', outerLoop funcList l = Some l' /\
             preserves (Index <$> funcList) l l'.
Proof.
  revert l. induction funcList as [|recv1 rest IH]; intros l Hall; simpl.
  - eexists. split; [done|apply preserves_refl].
  - apply Forall_cons in Hall as [H1 Hrest].
    destruct (innerLoop_preserves recv1 rest l H1 Hrest) as (l1 & -> & Hl1).
    pose proof Hl1 as (_ & Hlen & _).
    destruct (IH l1) as (l' & -> & Hl').
    { eapply Forall_impl; [exact Hrest|]. intros r Hr. simpl in *.
      by rewrite Hlen. }
    eexists. split; [done|].
    eapply preserves_trans; [exact Hl1|].
    eapply preserves_weaken; [|exact Hl']. set_solver.
Qed.

Lemma rearrange_preserves (order : list (list recvFunc)) (l : list Decl) :
  Forall (Forall (fun r => (Index r < List.length l)%nat)) order ->
  exists l', rearrange order l = Some l' /\
             preserves (Index <$> concat order) l l'.
Proof.
  revert l. induction order as [|funcList rest IH]; intros l Hall; simpl.
  - eexists. split; [done|apply preserves_refl].
  - apply Forall_cons in Hall as [H1 Hrest].
    destruct (outerLoop_preserves funcList l H1) as (l1 & -> & Hl1).
    pose proof Hl1 as (_ & Hlen & _).
    destruct (IH l1) as (l' & -> & Hl').
    { eapply Forall_impl; [exact Hrest|]. intros fl Hfl. simpl in *.
      eapply Forall_impl; [exact Hfl|]. intros r Hr. simpl in *.
      by rewrite Hlen. }
    eexists. split; [done|]. rewrite fmap_app.
    eapply preserves_trans;
      (eapply preserves_weaken; [|eassumption]); set_solver.
Qed.

Example isMock_values :
  isMock "Mock" = false /\ isMock "Mocks" = true /\ isMock "Moc" = false /\
  isMock "Store" = false.
Proof. by vm_compute. Qed.

(** The swaps compare the names recorded in the table, which stay
    where they are while the declarations move: three methods [C], [A],
    [B] of one type end as [B], [C], [A]. *)
Example run_three_methods :
  run [method "T" "C" 1; method "T" "A" 2; method "T" "B" 3]
  = Some [method "T" "B" 3; method "T" "C" 1; method "T" "A" 2].
Proof. by vm_compute. Qed.

Lemma getRecvStructName_inv (Recv : option (list Field)) (Name : string) :
  getRecvStructName Recv Name <> "" ->
  exists f, Recv = Some [f] /\ IsExported Name = true /\
            Type_ f = StarExpr (Ident (getRecvStructName Recv Name)).
Proof.
  unfold getRecvStructName. intros H.
  destruct Recv as [[|f [|f' fs]]|]; try done.
  destruct (IsExported Name); [|done].
  destruct (Type_ f) as [| [] | |] eqn:Hty; try done.
  by exists f.
Qed.

Lemma isMock_spec (s : string) : isMock s = true <-> isMockName s.
Proof.
  unfold isMock, isMockName.
  rewrite andb_true_iff, Nat.ltb_lt, String.eqb_eq. done.
Qed.

Lemma collect_reorderable (all pre decls : list Decl)
    (rFuncs : gmap string (list recvFunc)) :
  all = (pre ++ decls)%list ->
  indexesReorderable all rFuncs ->
  indexesReorderable all (collect (List.length pre) decls rFuncs).
Proof.
  revert pre rFuncs.
  induction decls as [|decl rest IH]; intros pre rFuncs Hall Hgood; simpl;
    [done|].
  assert (Hnext : forall m, indexesReorderable all m ->
    indexesReorderable all (collect (S (List.length pre)) rest m)).
  { intros m Hm. specialize (IH (pre ++ [decl])%list m).
    rewrite length_app, Nat.add_1_r in IH. apply IH; [|done].
    by rewrite <- app_assoc. }
  destruct decl as [tok specs|Recv Name body|len]; try by apply Hnext.
  destruct (String.eqb_spec (getRecvStructName Recv Name) "") as [|Hne];
    simpl; [by apply Hnext|].
  destruct (isMock (getRecvStructName Recv Name)) eqn:Hmock;
    [by apply Hnext|].
  apply Hnext. intros recv funcList rf Hlook Hin.
  destruct (decide (recv = getRecvStructName Recv Name)) as [->|Hother].
  - rewrite lookup_insert_eq in Hlook. injection Hlook as <-.
    apply elem_of_app in Hin as [Hin|Hin].
    + destruct (rFuncs !! getRecvStructName Recv Name) as [fl|] eqn:Hfl;
        simpl in Hin; [by eapply Hgood|by apply elem_of_nil in Hin].
    + apply list_elem_of_singleton in Hin as ->. simpl.
      exists (FuncDecl Recv Name body). split.
      * rewrite Hall. by apply list_lookup_middle.
      * destruct (getRecvStructName_inv Recv Name Hne) as (f & -> & Hex & Hty).
        simpl. split; [done|]. eexists. split; [done|].
        rewrite <- isMock_spec. congruence.
  - rewrite lookup_insert_ne in Hlook by done. by eapply Hgood.
Qed.

Lemma buildRFuncs_reorderable (decls : list Decl) :
  indexesReorderable decls (buildRFuncs decls).
Proof.
  apply (collect_reorderable decls [] decls ∅); [done|].
  intros recv funcList rf Hlook. by rewrite lookup_empty in Hlook.
Qed.

Lemma elem_of_concat_inv (rf : recvFunc) (order : list (list recvFunc)) :
  rf ∈ concat order -> exists funcList, rf ∈ funcList /\ funcList ∈ order.
Proof.
  induction order as [|fl rest IH]; simpl.
  - by intros ?%elem_of_nil.
  - intros [H|H]%elem_of_app.
    + exists fl. set_solver.
    + destruct (IH H) as (fl' & ? & ?). exists fl'. set_solver.
Qed.

Lemma order_entries (decls : list Decl) (order : list (list recvFunc))
    (funcList : list recvFunc) (rf : recvFunc) :
  isRangeOrder (buildRFuncs decls) order ->
  funcList ∈ order -> rf ∈ funcList ->
  exists d, decls !! Index rf = Some d /\ reorderable d.
Proof.
  unfold isRangeOrder. intros Horder Hfl Hrf.
  rewrite Horder in Hfl.
  apply list_elem_of_fmap in Hfl as ([recv fl] & -> & Hin).
  apply elem_of_map_to_list in Hin.
  by eapply buildRFuncs_reorderable.
Qed.



End FuncorderFacts.

(** ** The worker pool *)

Section ProcessorFacts.
Import TaskModel Pipeline.

Lemma TrySubmit_running (t : Task) (p : Processor) :
  procStopped p = false ->
  TrySubmit t p =
    if atCapacity p then ((false, None), p) else ((true, None), enqueue t p).
Proof. intros H. unfold TrySubmit. by rewrite H. Qed.

Lemma TrySubmit_stopped (t : Task) (p : Processor) :
  TrySubmit t (Stop p) = ((false, Some ErrStopped), Stop p) /\
  Submit t (Stop p) = (Returned (Some ErrStopped), Stop p).
Proof. done. Qed.

Lemma workerPick_frame (i : nat) (p : Processor) :
  poolSize (workerPick i p) = poolSize p /\
  procStopped (workerPick i p) = procStopped p /\
  occupancy (workerPick i p) = occupancy p.
Proof.
  unfold workerPick, occupancy.
  destruct (queued p !! i) as [t|] eqn:Hi; [|done]. simpl.
  pose proof (lookup_lt_Some _ _ _ Hi).
  rewrite length_delete by eauto.
  rewrite length_app. simpl. split_and!; try done; lia.
Qed.

Lemma workerDone_frame (i : nat) (err : option Error) (p : Processor) :
  poolSize (snd (workerDone i err p)) = poolSize p /\
  procStopped (snd (workerDone i err p)) = procStopped p /\
  (occupancy (snd (workerDone i err p)) <= occupancy p)%nat /\
  (is_Some (executing p !! i) ->
   S (occupancy (snd (workerDone i err p))) = occupancy p).
Proof.
  unfold workerDone, occupancy.
  destruct (executing p !! i) as [t|] eqn:Hi; simpl.
  - pose proof (lookup_lt_Some _ _ _ Hi).
    rewrite length_delete by eauto. split_and!; try done; lia.
  - split_and!; try done.
Qed.

Lemma workerSteps_frame (ms : list WorkerMove) (p : Processor) :
  poolSize (workerSteps ms p) = poolSize p /\
  procStopped (workerSteps ms p) = procStopped p /\
  (occupancy (workerSteps ms p) <= occupancy p)%nat.
Proof.
  unfold workerSteps. revert p.
  induction ms as [|m ms IH]; intros p; simpl; [done|].
  destruct (IH (workerStep m p)) as (Hs & Hst & Ho).
  rewrite Hs, Hst. destruct m as [i|i err]; simpl in *.
  - destruct (workerPick_frame i p) as (-> & -> & Hocc). split_and!; [done..|].
    lia.
  - destruct (workerDone_frame i err p) as (-> & -> & Hocc & _).
    split_and!; [done..|]. lia.
Qed.

(** The pool never holds more tasks than it has slots: submissions
    and worker moves keep the bound. *)
Lemma occupancy_bounded (t : Task) (ms : list WorkerMove) (p : Processor) :
  (occupancy p <= poolSize p)%nat ->
  (occupancy (snd (TrySubmit t p)) <= poolSize (snd (TrySubmit t p)))%nat /\
  (occupancy (snd (Submit t p)) <= poolSize (snd (Submit t p)))%nat /\
  (occupancy (workerSteps ms p) <= poolSize (workerSteps ms p))%nat.
Proof.
  intros Hb.
  assert (Henq : atCapacity p = false ->
                 (occupancy (enqueue t p) <= poolSize (enqueue t p))%nat).
  { unfold atCapacity. intros H%Nat.leb_gt. unfold occupancy in *. simpl.
    rewrite length_app. simpl. lia. }
  split_and!.
  - unfold TrySubmit. destruct (procStopped p); [done|].
    destruct (atCapacity p) eqn:Hc; [done|by apply Henq].
  - unfold Submit. destruct (procStopped p); [done|].
    destruct (atCapacity p) eqn:Hc; [done|by apply Henq].
  - destruct (workerSteps_frame ms p) as (-> & _ & Ho). lia.
Qed.

(** C3: on a running processor [TrySubmit] gives its answer at once,
    without an error; the answer is [false] exactly when the pool is at
    capacity, and then the pool is left as it was; once an execution
    has returned, and whatever the workers do next, [TrySubmit] is
    accepted. *)
Theorem try_submit_backpressure (t : Task) (p : Processor) :
  procStopped p = false ->
  (occupancy p <= poolSize p)%nat ->
  (exists ok p', TrySubmit t p = ((ok, None), p') /\
     (ok = false <-> atCapacity p = true) /\
     (ok = false -> p' = p) /\
     (ok = true -> p' = enqueue t p)) /\
  (forall i err ms t',
     is_Some (executing p !! i) ->
     fst (TrySubmit t' (workerSteps ms (snd (workerDone i err p))))
     = (true, None)).
Proof.
  intros Hrun Hb. split.
  - rewrite (TrySubmit_running t p Hrun).
    destruct (atCapacity p); eexists _, _; (split; [done|]); by split_and!.
  - intros i err ms t' Hi.
    destruct (workerDone_frame i err p) as (Hs & Hst & _ & Hocc).
    specialize (Hocc Hi).
    destruct (workerSteps_frame ms (snd (workerDone i err p)))
      as (Hs' & Hst' & Ho').
    rewrite TrySubmit_running by congruence.
    replace (atCapacity _) with false; [done|].
    symmetry. unfold atCapacity. apply Nat.leb_gt. lia.
Qed.

Lemma try_submit_backpressure_witness :
  fst (TrySubmit (sampleTask 6) busyPool) = (false, None) /\
  fst (TrySubmit (sampleTask 6) (snd (workerDone 0 None busyPool)))
  = (true, None).
Proof.
  assert (Hrun : procStopped busyPool = false) by reflexivity.
  assert (Hb : (occupancy busyPool <= poolSize busyPool)%nat)
    by (vm_compute; lia).
  destruct (try_submit_backpressure (sampleTask 6) busyPool Hrun Hb)
    as ((ok & p' & Hres & Hcap & _ & _) & Hfree).
  split.
  - rewrite Hres. simpl. f_equal. by apply Hcap.
  - apply (Hfree 0%nat None [] (sampleTask 6)). by eexists.
Defined.

End ProcessorFacts.

(** ** The retry buffer and the life of a task *)

Section RedispatcherFacts.
Import TaskModel Pipeline.

Lemma TrySubmit_accepted (t : Task) (p p' : Processor) (err : option Error) :
  TrySubmit t p = ((true, err), p') -> p' = enqueue t p.
Proof.
  unfold TrySubmit. destruct (procStopped p); [done|].
  destruct (atCapacity p); [done|]. by intros [= <- <-].
Qed.

Lemma drain_spec (targetSize : Z) (buf : list Task) (p : Processor) :
  exists submitted,
    buf = submitted ++ fst (drain targetSize buf p) /\
    queued (snd (drain targetSize buf p))
      = queued p ++ (incAttempt <$> submitted) /\
    executing (snd (drain targetSize buf p)) = executing p /\
    (submitted <> [] ->
     targetSize <= Z.of_nat (List.length (fst (drain targetSize buf p))) + 1) /\
    (fst (drain targetSize buf p) = [] \/
     Z.of_nat (List.length (fst (drain targetSize buf p))) < targetSize \/
     exists t rest,
       fst (drain targetSize buf p) = t :: rest /\
       fst (fst (TrySubmit (incAttempt t) (snd (drain targetSize buf p))))
       = false).
Proof.
  revert p. induction buf as [|t rest IH]; intros p.
  - exists []. simpl. rewrite app_nil_r. split_and!; auto. done.
  - cbn [drain].
    destruct (Z.ltb_spec (Z.of_nat (List.length (t :: rest))) targetSize)
      as [Hlt|Hge].
    { exists []. simpl. rewrite app_nil_r. split_and!; auto. done. }
    destruct (TrySubmit (incAttempt t) p) as [[[|] err] p'] eqn:Htry.
    + apply TrySubmit_accepted in Htry as ->.
      destruct (IH (enqueue (incAttempt t) p))
        as (sub & Hbuf & Hq & He & Hsize & Hexit).
      exists (t :: sub). split_and!.
      * simpl. by f_equal.
      * rewrite Hq. simpl. by rewrite <- app_assoc.
      * by rewrite He.
      * intros _. destruct sub as [|t' sub]; [|by apply Hsize].
        simpl in Hbuf. rewrite <- Hbuf. simpl in Hge. lia.
      * exact Hexit.
    + exists []. simpl. rewrite app_nil_r. split_and!; auto; [done|].
      right. right. exists t, rest. by rewrite Htry.
Qed.

Example Redispatch_until_saturated :
  let p := {| poolSize := 2; procStopped := false; queued := [];
              executing := [] |} in
  let r := {| buffer := [sampleTask 1; sampleTask 2; sampleTask 3] |} in
  Redispatch 0 r p
  = ({| buffer := [sampleTask 3] |},
     {| poolSize := 2; procStopped := false;
        queued := [incAttempt (sampleTask 1); incAttempt (sampleTask 2)];
        executing := [] |}).
Proof. reflexivity. Qed.

Example Redispatch_until_target :
  let p := {| poolSize := 5; procStopped := false; queued := [];
              executing := [] |} in
  let r := {| buffer := [sampleTask 1; sampleTask 2; sampleTask 3] |} in
  buffer (fst (Redispatch 3 r p)) = [sampleTask 2; sampleTask 3].
Proof. reflexivity. Qed.


Lemma lifecycle_frame (ms : list Mutation) (t : Task) :
  identity (lifecycle ms t) = identity t /\
  GetShard (lifecycle ms t) = GetShard t /\
  GetAttempt (lifecycle ms t) = GetAttempt t + resubmissions ms.
Proof.
  unfold lifecycle, resubmissions. revert t.
  induction ms as [|m ms IH]; intros t; simpl.
  - split_and!; [done..|lia].
  - destruct (IH (mutate t m)) as (Hid & Hsh & Hat).
    rewrite Hid, Hsh, Hat.
    destruct m; simpl; split_and!; try done; lia.
Qed.


End RedispatcherFacts.

(** ** The funcorder analyzer: the table and the swaps *)

Section FuncorderTableFacts.
Import Funcorder FuncorderTable.
Local Open Scope string_scope.

Lemma collect_lookup (decls : list Decl) (i : nat)
    (rFuncs : gmap string (list recvFunc)) (T : string) :
  collect i decls rFuncs !! T =
    match rFuncs !! T, methodsFrom i T decls with
    | Some fl, ms => Some (fl ++ ms)%list
    | None, [] => None
    | None, ms => Some ms
    end.
Proof.
  revert i rFuncs. induction decls as [|d rest IH]; intros i rFuncs.
  - simpl. destruct (rFuncs !! T); [by rewrite app_nil_r|done].
  - destruct d as [tok specs|Recv Name body|len]; try apply IH.
    simpl. unfold tracked. simpl.
    destruct (String.eqb (getRecvStructName Recv Name) "" ||
              isMock (getRecvStructName Recv Name)); simpl; [apply IH|].
    rewrite IH.
    destruct (String.eqb_spec (getRecvStructName Recv Name) T) as [->|Hne].
    + rewrite lookup_insert_eq.
      destruct (rFuncs !! T); simpl; [by rewrite <- app_assoc|done].
    + by rewrite lookup_insert_ne.
Qed.

Lemma buildRFuncs_lookup (decls : list Decl) (T : string) :
  buildRFuncs decls !! T =
    match methodsFrom 0 T decls with [] => None | ms => Some ms end.
Proof. unfold buildRFuncs. by rewrite collect_lookup, lookup_empty. Qed.

Lemma methodsFrom_elem (decls : list Decl) (i : nat) (T : string)
    (rf : recvFunc) :
  rf ∈ methodsFrom i T decls <->
  exists k d, decls !! k = Some d /\ Index rf = (i + k)%nat /\
              tracked d = true /\ declRecv d = T /\ declName d = FuncName rf.
Proof.
  revert i. induction decls as [|d rest IH]; intros i; simpl.
  - rewrite elem_of_nil. split; [done|]. by intros (k & d & Hk & _).
  - assert (Htail : rf ∈ methodsFrom (S i) T rest <->
      exists k d', (d :: rest) !! S k = Some d' /\ Index rf = (i + S k)%nat /\
        tracked d' = true /\ declRecv d' = T /\ declName d' = FuncName rf).
    { rewrite IH. do 2 (apply exist_proper; intros ?). simpl.
      by rewrite Nat.add_succ_r. }
    destruct (tracked d) eqn:Htr; simpl;
      [destruct (String.eqb_spec (declRecv d) T) as [HT|HT]|].
    + rewrite elem_of_cons, Htail. split.
      * intros [->|(k & d' & H)]; [|by exists (S k), d'].
        exists 0%nat, d. simpl. by rewrite Nat.add_0_r.
      * intros ([|k] & d' & Hk & Hi & Hrest); [|right; by exists k, d'].
        left. simpl in Hk. injection Hk as <-.
        destruct rf as [ix nm]. simpl in *. destruct Hrest as (_ & _ & <-).
        by rewrite Hi, Nat.add_0_r.
    + rewrite Htail. split.
      * intros (k & d' & H). by exists (S k), d'.
      * intros ([|k] & d' & Hk & Hi & Hrest); [|by exists k, d'].
        simpl in Hk. injection Hk as <-. by destruct Hrest as (_ & ? & _).
    + rewrite Htail. split.
      * intros (k & d' & H). by exists (S k), d'.
      * intros ([|k] & d' & Hk & Hi & Hrest); [|by exists k, d'].
        simpl in Hk. injection Hk as <-. destruct Hrest as (? & _).
        congruence.
Qed.

Lemma methodsFrom_sorted (decls : list Decl) (i : nat) (T : string) :
  StronglySorted lt (Index <$> methodsFrom i T decls).
Proof.
  revert i. induction decls as [|d rest IH]; intros i; simpl;
    [constructor|].
  destruct (tracked d && String.eqb (declRecv d) T); [|apply IH].
  simpl. constructor; [apply IH|].
  apply Forall_forall. intros k Hk.
  apply list_elem_of_fmap in Hk as (rf & -> & Hrf).
  apply methodsFrom_elem in Hrf as (k & d' & _ & -> & _). lia.
Qed.

(** The entries of a visiting order are the method lists of the
    receivers. *)
Lemma order_is_methods (decls : list Decl) (order : list (list recvFunc))
    (funcList : list recvFunc) :
  isRangeOrder (buildRFuncs decls) order -> funcList ∈ order ->
  exists T, funcList = methodsFrom 0 T decls.
Proof.
  unfold isRangeOrder. intros Horder Hfl. rewrite Horder in Hfl.
  apply list_elem_of_fmap in Hfl as ([T fl] & -> & Hin).
  apply elem_of_map_to_list in Hin. rewrite buildRFuncs_lookup in Hin.
  exists T. simpl. by destruct (methodsFrom 0 T decls); simplify_eq.
Qed.

Lemma sorted_pairs (R : recvFunc -> recvFunc -> Prop) (fl : list recvFunc) :
  StronglySorted lt (Index <$> fl) ->
  (forall r1 r2, r1 ∈ fl -> r2 ∈ fl -> (Index r1 < Index r2)%nat -> R r1 r2) ->
  ForallOrdPairs R fl.
Proof.
  induction fl as [|r fl IH]; simpl; intros Hs HR; [constructor|].
  apply StronglySorted_inv in Hs as [Hs Hr]. constructor.
  - apply Forall_forall. intros r2 Hr2. apply HR; [set_solver..|].
    rewrite Forall_forall in Hr. apply Hr. by apply list_elem_of_fmap_2.
  - apply IH; [done|]. intros r1 r2 H1 H2. apply HR; set_solver.
Qed.

Lemma innerLoop_ordered (recv1 : recvFunc) (rest : list recvFunc)
    (l : list Decl) :
  Forall (notGreater recv1) rest -> innerLoop recv1 rest l = Some l.
Proof.
  induction rest as [|recv2 rest IH]; simpl; [done|].
  intros [H2 Hrest]%Forall_cons. unfold notGreater in H2.
  destruct (String.compare (FuncName recv1) (FuncName recv2));
    [by apply IH..|done].
Qed.

Lemma outerLoop_ordered (funcList : list recvFunc) (l : list Decl) :
  ForallOrdPairs notGreater funcList -> outerLoop funcList l = Some l.
Proof.
  induction 1 as [|recv1 rest H1 _ IH]; simpl; [done|].
  by rewrite innerLoop_ordered.
Qed.

Lemma rearrange_ordered (order : list (list recvFunc)) (l : list Decl) :
  Forall (ForallOrdPairs notGreater) order -> rearrange order l = Some l.
Proof.
  induction 1 as [|fl rest H1 _ IH]; simpl; [done|].
  by rewrite outerLoop_ordered.
Qed.

Lemma swapDecls_recv (a b : nat) (l l' : list Decl) :
  swapDecls a b l = Some l' ->
  (declRecv <$> l) !! a = (declRecv <$> l) !! b ->
  declRecv <$> l' = declRecv <$> l.
Proof.
  unfold swapDecls. rewrite !list_lookup_fmap.
  destruct (l !! b) as [y|] eqn:Hb; [|done].
  destruct (l !! a) as [x|] eqn:Ha; [|done].
  simpl. intros [= <-] [= Hxy]. rewrite !list_fmap_insert.
  rewrite (list_insert_id _ a (declRecv y)).
  - apply list_insert_id. rewrite list_lookup_fmap, Hb. simpl. by f_equal.
  - rewrite list_lookup_fmap, Ha. simpl. by f_equal.
Qed.

Lemma innerLoop_recv (T : string) (recv1 : recvFunc) (rest : list recvFunc)
    (l l' : list Decl) :
  innerLoop recv1 rest l = Some l' ->
  (forall r, r ∈ recv1 :: rest -> (declRecv <$> l) !! Index r = Some T) ->
  declRecv <$> l' = declRecv <$> l.
Proof.
  revert l. induction rest as [|recv2 rest IH]; intros l; simpl.
  - by intros [= ->].
  - intros Hrun Hall.
    assert (Hskip : innerLoop recv1 rest l = Some l' ->
                    declRecv <$> l' = declRecv <$> l).
    { intros H. apply (IH l H). intros r Hr. apply Hall. set_solver. }
    destruct (String.compare (FuncName recv1) (FuncName recv2));
      try by apply Hskip.
    destruct (swapDecls (Index recv1) (Index recv2) l) as [l1|] eqn:Hsw;
      [|done].
    apply swapDecls_recv in Hsw;
      [|rewrite !Hall; [done|set_solver..]].
    rewrite <- Hsw. apply (IH l1 Hrun). intros r Hr. rewrite Hsw.
    apply Hall. set_solver.
Qed.

Lemma outerLoop_recv (T : string) (funcList : list recvFunc)
    (l l' : list Decl) :
  outerLoop funcList l = Some l' ->
  (forall r, r ∈ funcList -> (declRecv <$> l) !! Index r = Some T) ->
  declRecv <$> l' = declRecv <$> l.
Proof.
  revert l. induction funcList as [|recv1 rest IH]; intros l; simpl.
  - by intros [= ->].
  - destruct (innerLoop recv1 rest l) as [l1|] eqn:Hin; [|done].
    intros Hrun Hall. apply (innerLoop_recv T) in Hin; [|done].
    rewrite <- Hin. apply (IH l1 Hrun). intros r Hr. rewrite Hin.
    apply Hall. set_solver.
Qed.

Lemma rearrange_recv (order : list (list recvFunc)) (l l' : list Decl) :
  rearrange order l = Some l' ->
  (forall fl, fl ∈ order ->
     exists T, forall r, r ∈ fl -> (declRecv <$> l) !! Index r = Some T) ->
  declRecv <$> l' = declRecv <$> l.
Proof.
  revert l. induction order as [|fl rest IH]; intros l; simpl.
  - by intros [= ->].
  - destruct (outerLoop fl l) as [l1|] eqn:Hout; [|done].
    intros Hrun Hall. destruct (Hall fl) as (T & HT); [set_solver|].
    apply (outerLoop_recv T) in Hout; [|done].
    rewrite <- Hout. apply (IH l1 Hrun). intros fl' Hfl'. rewrite Hout.
    apply Hall. set_solver.
Qed.

Lemma methods_receiver (decls : list Decl) (T : string) (r : recvFunc) :
  r ∈ methodsFrom 0 T decls ->
  (declRecv <$> decls) !! Index r = Some T /\
  (Index r < List.length decls)%nat.
Proof.
  intros (k & d & Hk & Hi & _ & HT & _)%methodsFrom_elem.
  simpl in Hi. rewrite Hi. split.
  - by rewrite list_lookup_fmap, Hk, <- HT.
  - by eapply lookup_lt_Some.
Qed.






End FuncorderTableFacts.

(** ** The start command: flags and directories *)

Section CliStartFacts.
Import Cli CliStart.
Local Open Scope string_scope.

Lemma append_nil_l (s : string) : "" ++ s = s.
Proof. reflexivity. Qed.

Lemma append_cons (c : ascii) (s t : string) :
  String c s ++ t = String c (s ++ t).
Proof. reflexivity. Qed.

Lemma append_nil_r (s : string) : s ++ "" = s.
Proof.
  induction s as [|c s IH]; [done|]. by rewrite append_cons, IH.
Qed.

Lemma append_assoc (a b c : string) : (a ++ b) ++ c = a ++ b ++ c.
Proof.
  induction a as [|x a IH]; [done|]. by rewrite !append_cons, IH.
Qed.

Lemma append_length (a b : string) :
  String.length (a ++ b) = (String.length a + String.length b)%nat.
Proof.
  induction a as [|x a IH]; [done|]. rewrite append_cons. simpl.
  by rewrite IH.
Qed.

Lemma rev_app_spec (s1 s2 : string) :
  String.rev_app s1 s2 = String.rev s1 ++ s2.
Proof.
  revert s2. induction s1 as [|c s1 IH]; intros s2; [done|].
  unfold String.rev. simpl. rewrite (IH (String c s2)), (IH (String c "")).
  by rewrite append_assoc.
Qed.

Lemma rev_cons (c : ascii) (s : string) :
  String.rev (String c s) = String.rev s ++ String c "".
Proof. unfold String.rev at 1. simpl. apply rev_app_spec. Qed.

Lemma rev_append (a b : string) :
  String.rev (a ++ b) = String.rev b ++ String.rev a.
Proof.
  induction a as [|c a IH].
  - change (String.rev "") with "". by rewrite append_nil_l, append_nil_r.
  - by rewrite append_cons, !rev_cons, IH, append_assoc.
Qed.

Lemma rev_involutive (s : string) : String.rev (String.rev s) = s.
Proof.
  induction s as [|c s IH]; [done|].
  by rewrite rev_cons, rev_append, IH.
Qed.

Lemma rev_length (s : string) :
  String.length (String.rev s) = String.length s.
Proof.
  induction s as [|c s IH]; [done|].
  rewrite rev_cons, append_length, IH. simpl. lia.
Qed.

Lemma allSpace_app (a b : string) :
  allSpace (a ++ b) = allSpace a && allSpace b.
Proof.
  induction a as [|c a IH]; [done|]. rewrite append_cons. simpl.
  by rewrite IH, andb_assoc.
Qed.

Lemma allSpace_rev (s : string) : allSpace (String.rev s) = allSpace s.
Proof.
  induction s as [|c s IH]; [done|].
  rewrite rev_cons, allSpace_app, IH. simpl.
  by rewrite andb_true_r, andb_comm.
Qed.

Lemma trimLeft_app_space (ws s : string) :
  allSpace ws = true -> trimLeft (ws ++ s) = trimLeft s.
Proof.
  induction ws as [|c ws IH]; [done|]. rewrite append_cons. simpl.
  intros [-> Hws]%andb_true_iff. by apply IH.
Qed.

Lemma trimLeft_length (s : string) :
  (String.length (trimLeft s) <= String.length s)%nat.
Proof.
  induction s as [|c s IH]; simpl; [done|].
  destruct (isSpace c); simpl; lia.
Qed.

Lemma trimLeft_length_eq (s : string) :
  String.length (trimLeft s) = String.length s -> trimLeft s = s.
Proof.
  destruct s as [|c s]; simpl; [done|].
  destruct (isSpace c); [|done].
  pose proof (trimLeft_length s). lia.
Qed.

Lemma trimLeft_fixed_prefix (a b : string) :
  trimLeft (a ++ b) = a ++ b -> a <> "" -> trimLeft a = a.
Proof.
  destruct a as [|c a]; [done|]. rewrite append_cons. simpl.
  destruct (isSpace c); [|done].
  intros H _. pose proof (trimLeft_length (a ++ b)) as Hlen.
  rewrite H in Hlen. simpl in Hlen. lia.
Qed.

Lemma trimLeft_fixed_app (s t : string) :
  trimLeft s = s -> s <> "" -> trimLeft (s ++ t) = s ++ t.
Proof.
  destruct s as [|c s]; [done|]. rewrite append_cons. simpl.
  destruct (isSpace c); [|done].
  intros H _. pose proof (trimLeft_length s) as Hlen.
  rewrite H in Hlen. simpl in Hlen. lia.
Qed.

Lemma trimLeft_idemp (t : string) : trimLeft (trimLeft t) = trimLeft t.
Proof.
  induction t as [|c t IH]; simpl; [done|].
  destruct (isSpace c) eqn:Hc; [done|]. simpl. by rewrite Hc.
Qed.

Lemma trimLeft_suffix (s : string) :
  exists ws, allSpace ws = true /\ s = ws ++ trimLeft s.
Proof.
  induction s as [|c s (ws & Hws & IH)]; simpl; [by exists ""|].
  destruct (isSpace c) eqn:Hc; [|by exists ""].
  exists (String c ws). rewrite append_cons. simpl. rewrite Hc, Hws.
  split; [done|by f_equal].
Qed.

Lemma TrimSpace_fixed (v : string) :
  TrimSpace v = v ->
  trimLeft v = v /\ trimLeft (String.rev v) = String.rev v.
Proof.
  unfold TrimSpace. intros H.
  assert (Hlen : String.length (trimLeft v) = String.length v).
  { apply (f_equal String.length) in H. rewrite rev_length in H.
    pose proof (trimLeft_length (String.rev (trimLeft v))) as H1.
    pose proof (trimLeft_length v) as H2.
    rewrite rev_length in H1. lia. }
  apply trimLeft_length_eq in Hlen. rewrite Hlen in H. split; [done|].
  rewrite <- H at 2. by rewrite rev_involutive.
Qed.

Lemma TrimSpace_pad (ws1 v ws2 : string) :
  allSpace ws1 = true -> allSpace ws2 = true -> TrimSpace v = v ->
  TrimSpace (ws1 ++ v ++ ws2) = v.
Proof.
  intros H1 H2 [Hv Hr]%TrimSpace_fixed. unfold TrimSpace.
  rewrite (trimLeft_app_space ws1 _ H1).
  destruct (decide (v = "")) as [->|Hne].
  - rewrite append_nil_l. by rewrite (trimLeft_allSpace ws2 H2).
  - rewrite (trimLeft_fixed_app v ws2 Hv Hne), rev_append.
    rewrite trimLeft_app_space by (by rewrite allSpace_rev).
    by rewrite Hr, rev_involutive.
Qed.

Lemma TrimSpace_idemp (s : string) : TrimSpace (TrimSpace s) = TrimSpace s.
Proof.
  unfold TrimSpace. set (t := trimLeft s).
  destruct (trimLeft_suffix (String.rev t)) as (ws & Hws & Hrev).
  set (u := trimLeft (String.rev t)) in *.
  assert (Hu : trimLeft (String.rev u) = String.rev u).
  { destruct (decide (String.rev u = "")) as [->|Hne]; [done|].
    apply (trimLeft_fixed_prefix _ (String.rev ws)); [|done].
    rewrite <- rev_append, <- Hrev, rev_involutive. apply trimLeft_idemp. }
  rewrite Hu, rev_involutive. unfold u. by rewrite trimLeft_idemp.
Qed.

Lemma noSpace_app (a b : string) :
  noSpace (a ++ b) = noSpace a && noSpace b.
Proof.
  induction a as [|c a IH]; [done|]. rewrite append_cons. simpl.
  by rewrite IH, andb_assoc.
Qed.

Lemma noSpace_rev (s : string) : noSpace (String.rev s) = noSpace s.
Proof.
  induction s as [|c s IH]; [done|].
  rewrite rev_cons, noSpace_app, IH. simpl.
  by rewrite andb_true_r, andb_comm.
Qed.

Lemma noSpace_trimLeft (s : string) : noSpace s = true -> trimLeft s = s.
Proof.
  destruct s as [|c s]; simpl; [done|].
  by intros [->%negb_true_iff _]%andb_true_iff.
Qed.

Lemma noSpace_TrimSpace (s : string) : noSpace s = true -> TrimSpace s = s.
Proof.
  intros H. unfold TrimSpace. rewrite (noSpace_trimLeft s H).
  rewrite noSpace_trimLeft by (by rewrite noSpace_rev).
  apply rev_involutive.
Qed.

Lemma plainName_noSpace (s : string) : plainName s = true -> noSpace s = true.
Proof.
  induction s as [|c s IH]; simpl; [done|].
  intros [[-> _]%andb_true_iff Hs]%andb_true_iff. by apply IH.
Qed.

Lemma Join_noSpace (vs : list string) :
  Forall (fun s => plainName s = true) vs -> noSpace (Join vs ",") = true.
Proof.
  induction 1 as [|e rest He _ IH]; [done|].
  destruct rest as [|e' rest]; [by apply plainName_noSpace|].
  change (Join (e :: e' :: rest) ",") with (e ++ "," ++ Join (e' :: rest) ",").
  rewrite !noSpace_app, IH, (plainName_noSpace e He). done.
Qed.

Lemma splitFrom_plain (t s tok : string) :
  plainName t = true ->
  splitFrom "," (t ++ s) tok = splitFrom "," s (tok ++ t).
Proof.
  revert tok. induction t as [|c t IH]; intros tok.
  - by rewrite append_nil_l, append_nil_r.
  - rewrite append_cons. simpl.
    intros [[_ Hc%negb_true_iff]%andb_true_iff Ht]%andb_true_iff.
    rewrite Hc, (IH _ Ht), append_assoc. done.
Qed.

Lemma Join_cons (e e' : string) (rest : list string) (sep : string) :
  Join (e :: e' :: rest) sep = e ++ sep ++ Join (e' :: rest) sep.
Proof. reflexivity. Qed.

Lemma splitFrom_sep (s tok : string) :
  splitFrom "," ("," ++ s) tok = tok :: splitFrom "," s "".
Proof. reflexivity. Qed.

Lemma Split_Join (vs : list string) :
  vs <> [] -> Forall (fun s => plainName s = true) vs ->
  Split (Join vs ",") "," = vs.
Proof.
  unfold Split. intros Hne Hall. induction Hall as [|e rest He _ IH]; [done|].
  destruct rest as [|e' rest].
  - change (Join [e] ",") with e.
    rewrite <- (append_nil_r e) at 1. by rewrite splitFrom_plain.
  - rewrite Join_cons, splitFrom_plain, splitFrom_sep, IH by done. done.
Qed.

Lemma checkTokens_spec (validServices : list string) (val : string)
    (tokens : list string) :
  match checkTokens validServices val tokens with
  | None => Forall (fun t => t ∈ validServices) tokens
  | Some f =>
      exists pre t post, tokens = (pre ++ t :: post)%list /\
        Forall (fun t => t ∈ validServices) pre /\ (t ∉ validServices) /\
        f = FatalInvalidService t val
  end.
Proof.
  induction tokens as [|t ts IH]; simpl; [done|].
  destruct (isValidService validServices t) eqn:Ht; simpl.
  - apply isValidService_spec in Ht.
    destruct (checkTokens validServices val ts) as [f|].
    + destruct IH as (pre & t' & post & -> & Hpre & Ht' & ->).
      exists (t :: pre), t', post. split_and!; [done| |done..].
      by constructor.
    + by constructor.
  - exists [], t, ts. split_and!; [done..| |done].
    rewrite <- isValidService_spec. congruence.
Qed.




Lemma getServices_tokens_aux (validServices : list string) :
  validServices <> [] ->
  Forall (fun s => plainName s = true) validServices ->
  TrimSpace (defaultServices validServices) = defaultServices validServices /\
  Split (defaultServices validServices) "," = validServices.
Proof.
  intros Hne Hall. unfold defaultServices. split.
  - by apply noSpace_TrimSpace, Join_noSpace.
  - by apply Split_Join.
Qed.

(** X6: the default of the [services] flag, the valid service names
    joined by commas, is accepted by [getServices] and starts every
    valid service once, in the order of the table, provided the table
    is not empty and no name holds a comma or white space. *)
Theorem default_services_accepted (validServices : list string) :
  validServices <> [] ->
  Forall (fun s => plainName s = true) validServices ->
  getServices validServices (defaultServices validServices)
  = inr validServices.
Proof.
  intros Hne Hall.
  destruct (getServices_tokens_aux validServices Hne Hall) as [Htrim Hsplit].
  unfold getServices. rewrite Htrim, Hsplit.
  destruct validServices as [|s rest]; [done|].
  change (Nat.eqb (List.length (s :: rest)) 0) with false. cbv iota.
  pose proof (checkTokens_spec (s :: rest) (defaultServices (s :: rest))
                (s :: rest)) as Hspec.
  destruct (checkTokens (s :: rest) (defaultServices (s :: rest)) (s :: rest))
    as [f|]; [|done].
  destruct Hspec as (pre & t & post & Heq & _ & Ht & _).
  destruct Ht. rewrite Heq. set_solver.
Qed.

Lemma default_services_accepted_witness :
  getServices sampleServices (defaultServices sampleServices)
  = inr sampleServices.
Proof.
  apply (default_services_accepted sampleServices); [done|].
  repeat constructor.
Defined.

Lemma length_zero (s : string) :
  Nat.eqb (String.length s) 0 = true <-> s = "".
Proof. destruct s; simpl; split; done. Qed.

Lemma append_nonempty (a b : string) : a ++ "/" ++ b <> "".
Proof.
  intros H. apply (f_equal String.length) in H.
  rewrite !append_length in H. simpl in H. lia.
Qed.

Lemma unixIsAbs_append (dir file : string) :
  unixIsAbs (dir ++ "/" ++ file) = unixIsAbs dir || String.eqb dir "".
Proof.
  destruct dir as [|c dir]; [done|]. rewrite append_cons. simpl.
  by rewrite orb_false_r.
Qed.

(** X7: on Unix, [constructPathIfNeed] never returns the empty path,
    also for an empty [file], which gives [dir + "/"]; the result is
    absolute exactly when [file] is absolute, [dir] is absolute or
    [dir] is empty; the function is idempotent in [file] for an
    absolute or empty [dir], and for a relative [dir] a second
    application to a relative [file] puts [dir] in front once more. *)
Theorem constructPathIfNeed_unix (dir file : string) :
  constructPathIfNeed unixIsAbs dir file <> "" /\
  constructPathIfNeed unixIsAbs dir "" = dir ++ "/" /\
  unixIsAbs (constructPathIfNeed unixIsAbs dir file)
  = unixIsAbs file || unixIsAbs dir || String.eqb dir "" /\
  (unixIsAbs dir = true \/ dir = "" ->
   constructPathIfNeed unixIsAbs dir (constructPathIfNeed unixIsAbs dir file)
   = constructPathIfNeed unixIsAbs dir file) /\
  (unixIsAbs dir = false -> dir <> "" -> unixIsAbs file = false ->
   constructPathIfNeed unixIsAbs dir (constructPathIfNeed unixIsAbs dir file)
   = dir ++ "/" ++ dir ++ "/" ++ file).
Proof.
  unfold constructPathIfNeed. split_and!.
  - destruct (unixIsAbs file) eqn:Habs; simpl; [|apply append_nonempty].
    by destruct file.
  - done.
  - destruct (unixIsAbs file) eqn:Habs; simpl; [done|].
    apply unixIsAbs_append.
  - intros Hdir. destruct (unixIsAbs file) eqn:Habs; simpl.
    + by rewrite Habs.
    + rewrite unixIsAbs_append.
      destruct Hdir as [->| ->]; [done|]. by rewrite orb_true_r.
  - intros Hdir Hne Hfile. rewrite Hfile. simpl.
    rewrite unixIsAbs_append, Hdir. simpl.
    destruct (String.eqb_spec dir "") as [->|_]; [done|]. done.
Qed.

(** X8: [getConfigDir] ends the process exactly when the [root] flag
    is empty and [os.Getwd] fails, also for an absolute [config] flag,
    for which no root is needed; otherwise an absolute [config] flag is
    returned as it is, and a relative one is put behind the [root]
    flag, or behind the working directory when the [root] flag is
    empty; [os.Getwd] has no influence when the [root] flag is set.
    With the defaults of [BuildCLI] the config directory is
    [./config]. *)
Theorem getConfigDir_cases (IsAbs : string -> bool)
    (rootFlag : string) (getwd : option string) (configFlag : string) :
  (getConfigDir IsAbs rootFlag getwd configFlag = None <->
   rootFlag = "" /\ getwd = None) /\
  (forall dir, getConfigDir IsAbs rootFlag getwd configFlag = Some dir ->
     (IsAbs configFlag = true -> dir = configFlag) /\
     (IsAbs configFlag = false ->
      exists root, dir = root ++ "/" ++ configFlag /\
        (rootFlag <> "" -> root = rootFlag) /\
        (rootFlag = "" -> getwd = Some root))) /\
  (rootFlag <> "" -> forall getwd',
     getConfigDir IsAbs rootFlag getwd' configFlag
     = getConfigDir IsAbs rootFlag getwd configFlag) /\
  getConfigDir unixIsAbs defaultRoot getwd defaultConfig = Some "./config".
Proof.
  unfold getConfigDir, getRootDir, constructPathIfNeed.
  destruct (Nat.eqb (String.length rootFlag) 0) eqn:Hlen.
  - apply length_zero in Hlen as ->. split_and!; [| |done|done].
    + destruct getwd; split; [done|by intros [_ ?]|done|done].
    + intros dir. destruct getwd as [cwd|]; [|done]. intros [= <-].
      split; intros Habs; rewrite Habs; simpl; [done|].
      exists cwd. done.
  - assert (Hne : rootFlag <> "").
    { intros ->. done. }
    split_and!; [| | |done].
    + split; [done|]. by intros [? _].
    + intros dir [= <-]. split; intros Habs; rewrite Habs; simpl; [done|].
      exists rootFlag. done.
    + intros _ getwd'. done.
Qed.

(** X9: before the configuration is validated, [startHandler] rewrites
    the file path of one dynamic config source only: the one of the
    config-store client when [DynamicConfig.Client] is empty, the
    file-based one otherwise; the other path and the client name are
    left as loaded, also when that path is relative.  On Unix the
    rewritten path is never empty afterwards, and it is absolute
    whenever the root directory is. *)
Theorem resolveDynamicConfig_one_path (rootDir : string) (cfg : DynamicConfig) :
  Client (resolveDynamicConfig unixIsAbs rootDir cfg) = Client cfg /\
  (Client cfg = "" ->
   FileBasedFilepath (resolveDynamicConfig unixIsAbs rootDir cfg)
   = FileBasedFilepath cfg /\
   ClientFilepath (resolveDynamicConfig unixIsAbs rootDir cfg) <> "" /\
   (unixIsAbs rootDir = true ->
    unixIsAbs (ClientFilepath (resolveDynamicConfig unixIsAbs rootDir cfg))
    = true)) /\
  (Client cfg <> "" ->
   ClientFilepath (resolveDynamicConfig unixIsAbs rootDir cfg)
   = ClientFilepath cfg /\
   FileBasedFilepath (resolveDynamicConfig unixIsAbs rootDir cfg) <> "" /\
   (unixIsAbs rootDir = true ->
    unixIsAbs (FileBasedFilepath (resolveDynamicConfig unixIsAbs rootDir cfg))
    = true)).
Proof.
  assert (Hne : forall file, constructPathIfNeed unixIsAbs rootDir file <> "").
  { intros file. unfold constructPathIfNeed.
    destruct (unixIsAbs file) eqn:Habs; simpl; [|apply append_nonempty].
    by destruct file. }
  assert (Habs : forall file, unixIsAbs rootDir = true ->
            unixIsAbs (constructPathIfNeed unixIsAbs rootDir file) = true).
  { intros file Hroot. unfold constructPathIfNeed.
    destruct (unixIsAbs file) eqn:Hfile; simpl; [done|].
    by rewrite unixIsAbs_append, Hroot. }
  unfold resolveDynamicConfig.
  destruct (String.eqb_spec (Client cfg) "") as [Hc|Hc]; simpl;
    split_and!; try done; intros _; split_and!; try done;
    try apply Hne; apply Habs.
Qed.

End CliStartFacts.

(** ** The domain commands: failover and listing *)

Section DomainCliFacts.
Import Cli CliStart DomainCli.
Local Open Scope string_scope.

Lemma isSpace_toLowerByte (c : ascii) : isSpace (toLowerByte c) = isSpace c.
Proof. destruct c as [[] [] [] [] [] [] [] []]; reflexivity. Qed.

Lemma noSpace_ToLower (s : string) : noSpace (ToLower s) = noSpace s.
Proof.
  induction s as [|c s IH]; simpl; [done|].
  by rewrite isSpace_toLowerByte, IH.
Qed.

Lemma TrimSpace_decompose (s : string) :
  exists ws1 ws2, allSpace ws1 = true /\ allSpace ws2 = true /\
                  s = ws1 ++ TrimSpace s ++ ws2.
Proof.
  destruct (trimLeft_suffix s) as (ws1 & H1 & Hs).
  destruct (trimLeft_suffix (String.rev (trimLeft s))) as (ws2 & H2 & Hr).
  exists ws1, (String.rev ws2). split_and!; [done|by rewrite allSpace_rev|].
  unfold TrimSpace. rewrite <- rev_append, <- Hr, rev_involutive. exact Hs.
Qed.


Lemma failoverLoop_spec (Server : Type)
    (updateDomain : Server -> UpdateDomainRequest -> option rpcError * Server)
    (key targetCluster : string) (domains : list DescribeDomainResponse)
    (run : failoverRun Server) :
  exists ss fs,
    succeedDomains (failoverLoop Server updateDomain key targetCluster
                      domains run) = (succeedDomains run ++ ss)%list /\
    failedDomains (failoverLoop Server updateDomain key targetCluster
                     domains run) = (failedDomains run ++ fs)%list /\
    requests (failoverLoop Server updateDomain key targetCluster domains run)
    = (requests run ++
       ((fun d => failoverRequest (GetName (DomainInfo_ d)) targetCluster)
          <$> List.filter (shouldFailover key targetCluster) domains))%list /\
    (ss ++ fs)%list ≡ₚ
      ((fun d => GetName (DomainInfo_ d))
         <$> List.filter (shouldFailover key targetCluster) domains) /\
    sublist ss ((fun d => GetName (DomainInfo_ d))
                  <$> List.filter (shouldFailover key targetCluster) domains) /\
    sublist fs ((fun d => GetName (DomainInfo_ d))
                  <$> List.filter (shouldFailover key targetCluster) domains) /\
    ((forall s r, (updateDomain s r).1 = None) ->
     fs = [] /\
     ss = (fun d => GetName (DomainInfo_ d))
            <$> List.filter (shouldFailover key targetCluster) domains).
Proof.
  revert run. induction domains as [|d rest IH]; intros run; simpl.
  - exists [], []. rewrite !app_nil_r. split_and!; try done.
  - destruct (shouldFailover key targetCluster d); [|apply IH].
    unfold failover.
    destruct (updateDomain (server run)
                (failoverRequest (GetName (DomainInfo_ d)) targetCluster))
      as [[e|] s'] eqn:Hcall.
    + destruct (IH {| succeedDomains := succeedDomains run;
                      failedDomains :=
                        (failedDomains run ++ [GetName (DomainInfo_ d)])%list;
                      requests :=
                        (requests run ++
                         [failoverRequest (GetName (DomainInfo_ d))
                            targetCluster])%list;
                      server := s' |})
        as (ss & fs & Hs & Hf & Hr & Hp & Hss & Hfs & Hall).
      exists ss, (GetName (DomainInfo_ d) :: fs). simpl in *.
      rewrite Hs, Hf, Hr, <- !app_assoc. simpl. split_and!; try done.
      * by rewrite <- Permutation_middle, Hp.
      * by apply sublist_cons.
      * by apply sublist_skip.
      * intros Hok. specialize (Hok (server run)
          (failoverRequest (GetName (DomainInfo_ d)) targetCluster)).
        by rewrite Hcall in Hok.
    + destruct (IH {| succeedDomains :=
                        (succeedDomains run ++ [GetName (DomainInfo_ d)])%list;
                      failedDomains := failedDomains run;
                      requests :=
                        (requests run ++
                         [failoverRequest (GetName (DomainInfo_ d))
                            targetCluster])%list;
                      server := s' |})
        as (ss & fs & Hs & Hf & Hr & Hp & Hss & Hfs & Hall).
      exists (GetName (DomainInfo_ d) :: ss), fs. simpl in *.
      rewrite Hs, Hf, Hr, <- !app_assoc. simpl. split_and!; try done.
      * by rewrite Hp.
      * by apply sublist_skip.
      * by apply sublist_cons.
      * intros Hok. destruct (Hall Hok) as [-> ->]. done.
Qed.


Lemma getAllDomainsLoop_collects (Server : Type)
    (listDomains : Server -> ListDomainsRequest ->
                   (rpcError + ListDomainsResponse) * Server)
    (s : Server) (token : string)
    (pages : list (list DescribeDomainResponse)) (s' : Server) :
  servesFrom Server listDomains s token pages s' ->
  forall res fuel, (List.length pages <= fuel)%nat ->
    getAllDomainsLoop Server listDomains fuel token res s
    = Some (inr (res ++ concat pages)%list, s').
Proof.
  induction 1 as [s token listResp s' Hcall Htok
                 |s token listResp s' pages s'' Hcall Htok _ IH];
    intros res [|fuel] Hfuel; simpl in Hfuel; try lia; simpl;
    rewrite Hcall.
  - rewrite Htok. simpl. by rewrite app_nil_r.
  - destruct (RespNextPageToken listResp) as [|c t] eqn:Hnext; [done|].
    simpl. rewrite IH by lia. by rewrite <- app_assoc.
Qed.

(** X12: when the server answers the request without a page token
    with a first page, and every request with the token of the page
    before with the next one, up to a page without a token,
    [getAllDomains] ends after as many requests as there are pages and
    returns the domains of all pages, in the order of the pages; at
    least one request is made. *)
Theorem getAllDomains_collects (Server : Type)
    (listDomains : Server -> ListDomainsRequest ->
                   (rpcError + ListDomainsResponse) * Server)
    (s : Server) (pages : list (list DescribeDomainResponse)) (s' : Server)
    (fuel : nat) :
  servesFrom Server listDomains s "" pages s' ->
  (List.length pages <= fuel)%nat ->
  getAllDomains Server listDomains fuel s = Some (inr (concat pages), s') /\
  (1 <= List.length pages)%nat /\
  getAllDomains Server listDomains 0 s = None.
Proof.
  intros Hserves Hfuel. split_and!; [|by destruct Hserves; simpl; lia|done].
  unfold getAllDomains.
  by rewrite (getAllDomainsLoop_collects _ _ _ _ _ _ Hserves [] fuel Hfuel).
Qed.

Lemma getAllDomains_collects_witness :
  getAllDomains unit twoPages 2 tt
  = Some (inr [sampleDomain "orders" "dc1" " True ";
               sampleDomain "billing" "dc2" "true"], tt).
Proof.
  apply (getAllDomains_collects unit twoPages tt
           [[sampleDomain "orders" "dc1" " True "];
            [sampleDomain "billing" "dc2" "true"]] tt 2).
  - apply (serves_more unit twoPages tt ""
             {| Domains := [sampleDomain "orders" "dc1" " True "];
                RespNextPageToken := "next" |} tt
             [[sampleDomain "billing" "dc2" "true"]] tt);
      [reflexivity|done|].
    apply (serves_last unit twoPages tt "next"
             {| Domains := [sampleDomain "billing" "dc2" "true"];
                RespNextPageToken := "" |} tt); reflexivity.
  - simpl. lia.
Defined.

End DomainCliFacts.

(** ** The domain commands: the list of domains *)

Section ListDomainsFacts.
Import Cli CliStart DomainCli.
Local Open Scope string_scope.

Variable DomainRow : Type.
Variable newDomainRow : DescribeDomainResponse -> option DomainRow.
Variable Marshal : list DescribeDomainResponse -> option string.
Variable registered deprecated : DomainStatus.

Lemma index_prefix (s1 s2 : string) :
  String.index 0 s1 s2 = Some 0%nat <-> String.prefix s1 s2 = true.
Proof.
  destruct s2 as [|b s2].
  - destruct s1; split; done.
  - change (String.index 0 s1 (String b s2))
      with (if String.prefix s1 (String b s2) then Some 0%nat
            else match String.index 0 s1 s2 with
                 | Some n => Some (S n)
                 | None => None
                 end).
    destruct (String.prefix s1 (String b s2)); [split; done|].
    destruct (String.index 0 s1 s2); split; done.
Qed.

Lemma Index_prefix (s prefix : string) :
  (Index s prefix =? 0)%Z = String.prefix prefix s.
Proof.
  unfold Index. pose proof (index_prefix prefix s) as H.
  destruct (String.index 0 prefix s) as [[|n]|].
  - symmetry. by apply H.
  - destruct (String.prefix prefix s); [|done].
    by destruct H as [_ H]; specialize (H eq_refl).
  - destruct (String.prefix prefix s); [|done].
    by destruct H as [_ H]; specialize (H eq_refl).
Qed.

Lemma prefix_empty (s : string) : String.prefix "" s = true.
Proof. by destruct s. Qed.

Lemma hasStatus_info (domain : DescribeDomainResponse) :
  hasStatus domain = true ->
  exists info st, DomainInfo_ domain = Some info /\ Status info = Some st.
Proof.
  unfold hasStatus, derefStatus.
  destruct (DomainInfo_ domain) as [info|]; [|done].
  destruct (Status info) as [st|] eqn:Hst; [|done]. by exists info, st.
Qed.

Lemma prefixLoop_filter (prefix : string)
    (domains acc : list DescribeDomainResponse) :
  Forall (fun d => hasStatus d = true) domains ->
  prefixLoop prefix domains acc
  = Some (acc ++ List.filter (hasPrefix prefix) domains)%list.
Proof.
  intros Hall. revert acc.
  induction Hall as [|d rest Hd _ IH]; intros acc; simpl.
  - by rewrite app_nil_r.
  - apply hasStatus_info in Hd as (info & st & Hinfo & _).
    unfold hasPrefix. rewrite Hinfo. simpl. rewrite Index_prefix.
    destruct (String.prefix prefix (Name info)); rewrite IH; [|done].
    by rewrite <- app_assoc.
Qed.

Lemma statusLoop_filter (printDeprecated : bool)
    (domains acc : list DescribeDomainResponse) :
  Forall (fun d => hasStatus d = true) domains ->
  statusLoop registered deprecated printDeprecated domains acc
  = Some (acc ++ List.filter
                   (statusAsked registered deprecated false printDeprecated)
                   domains)%list.
Proof.
  intros Hall. revert acc.
  induction Hall as [|d rest Hd _ IH]; intros acc; simpl.
  - by rewrite app_nil_r.
  - unfold statusAsked, hasStatus in *.
    destruct (derefStatus d) as [st|]; [|done]. simpl.
    destruct printDeprecated;
      (destruct (st =? _)%Z; rewrite IH; [by rewrite <- app_assoc|done]).
Qed.

Lemma filter_filter {A : Type} (f g : A -> bool) (l : list A) :
  List.filter f (List.filter g l) = List.filter (fun x => g x && f x) l.
Proof.
  induction l as [|x l IH]; simpl; [done|].
  destruct (g x); simpl; [|done]. destruct (f x); by rewrite IH.
Qed.

Lemma filter_all {A : Type} (f : A -> bool) (l : list A) :
  (forall x, f x = true) -> List.filter f l = l.
Proof.
  intros H. induction l as [|x l IH]; simpl; [done|]. by rewrite H, IH.
Qed.

Lemma filter_Forall {A : Type} (P : A -> Prop) (f : A -> bool) (l : list A) :
  Forall P l -> Forall P (List.filter f l).
Proof.
  induction 1 as [|x l Hx _ IH]; simpl; [done|].
  destruct (f x); [by constructor|done].
Qed.

Lemma filter_shorter {A : Type} (f : A -> bool) (l : list A) :
  (List.length (List.filter f l) <= List.length l)%nat.
Proof.
  induction l as [|x l IH]; simpl; [done|]. destruct (f x); simpl; lia.
Qed.

(** What [ListDomains] does behind its two filters. *)
Lemma ListDomains_filtered (pageSize : Z) (prefix : string)
    (printAll printDeprecated printJSON : bool)
    (all : list DescribeDomainResponse) (answers : nat -> bool) :
  printAll && printDeprecated = false ->
  Forall (fun d => hasStatus d = true) all ->
  ListDomains DomainRow newDomainRow Marshal registered deprecated
    pageSize prefix printAll printDeprecated printJSON (inr all) answers
  = if printJSON then
      match Marshal (List.filter (listed registered deprecated prefix
                                    printAll printDeprecated) all) with
      | Some out => ([Printed out], Returned)
      | None => ([], Exited ExitJSON)
      end
    else if (pageSize <? 0)%Z then ([], Panicked)
    else
      pageLoop DomainRow newDomainRow pageSize
        (Z.of_nat (List.length (List.filter (hasPrefix prefix) all)))
        answers 0 0 [] 0
        (List.filter (listed registered deprecated prefix
                        printAll printDeprecated) all).
Proof.
  intros Hflags Hall. unfold ListDomains. rewrite Hflags.
  assert (Hpre : (if (0 <? String.length prefix)%nat
                  then prefixLoop prefix all [] else Some all)
                 = Some (List.filter (hasPrefix prefix) all)).
  { destruct prefix as [|c prefix]; simpl.
    - rewrite filter_all; [done|]. intros d. apply prefix_empty.
    - by rewrite prefixLoop_filter. }
  rewrite Hpre.
  assert (Hst : (if printAll then Some (List.filter (hasPrefix prefix) all)
                 else statusLoop registered deprecated printDeprecated
                        (List.filter (hasPrefix prefix) all) [])
                = Some (List.filter (listed registered deprecated prefix
                                       printAll printDeprecated) all)).
  { unfold listed. destruct printAll; simpl.
    - f_equal. apply filter_ext. intros d. by rewrite andb_true_r.
    - rewrite statusLoop_filter by by apply filter_Forall.
      by rewrite filter_filter. }
  by rewrite Hst.
Qed.

Lemma pageLoop_pages (pageSize lenDomains : Z) (answers : nat -> bool)
    (rest : list DescribeDomainResponse) (rows : list DomainRow) :
  (0 < pageSize)%Z ->
  Forall2 (fun d row => newDomainRow d = Some row) rest rows ->
  forall asked i table,
    (Z.of_nat (List.length table) < pageSize)%Z ->
    (i + Z.of_nat (List.length rest) <= lenDomains)%Z ->
    exists outs,
      pageLoop DomainRow newDomainRow pageSize lenDomains answers asked i
        table (Z.of_nat (List.length table)) rest = (outs, Returned) /\
      concat (tables outs) `prefix_of` (table ++ rows)%list /\
      Forall (fun t => (Z.of_nat (List.length t) <= pageSize)%Z)
        (tables outs) /\
      ((forall k, answers k = true) ->
       concat (tables outs) = (table ++ rows)%list) /\
      (answers asked = false ->
       concat (tables outs)
       = (table ++
          take (Z.to_nat (pageSize - Z.of_nat (List.length table))) rows)%list).
Proof.
  intros Hp Hrows.
  induction Hrows as [|d row rest rows Hrow Hrest IH];
    intros asked i table Hlt Hi.
  - exists [Rendered table]. simpl. rewrite !app_nil_r, take_nil, app_nil_r.
    split_and!; try done. repeat constructor. lia.
  - simpl. rewrite Hrow. simpl in Hi.
    destruct (Z.eqb_spec (Z.of_nat (List.length table) + 1) pageSize)
      as [Hfull|Hmore]; simpl.
    + assert (Htake : take (Z.to_nat
                (pageSize - Z.of_nat (List.length table))) (row :: rows)
              = [row]).
      { replace (pageSize - Z.of_nat (List.length table))%Z with 1%Z by lia.
        simpl. by rewrite take_0. }
      assert (Hsize : (Z.of_nat (List.length (table ++ [row])) <= pageSize)%Z).
      { rewrite length_app. simpl. lia. }
      destruct (Z.eqb_spec i (lenDomains - 1)) as [Hlast|Hnot].
      * exists [Rendered (table ++ [row])]. simpl.
        rewrite app_nil_r, Htake.
        split_and!; [done| |by repeat constructor| |done].
        -- exists rows. by rewrite <- app_assoc.
        -- intros _. destruct rest; [|simpl in Hi; lia].
           apply Forall2_nil_inv_l in Hrest as ->. done.
      * destruct (answers asked) eqn:Hans; simpl.
        -- destruct (IH (S asked) (i + 1)%Z []) as
             (outs & Hrun & Hpre & Hlen & Hall & _); [simpl; lia|lia|].
           change (Z.of_nat (List.length (@nil DomainRow))) with 0%Z in Hrun.
           rewrite Hrun.
           exists (Rendered (table ++ [row]) :: Prompted true :: outs).
           simpl. split_and!; [done| | | |done].
           ++ rewrite <- app_assoc. simpl.
              apply prefix_app, (prefix_app [row]). exact Hpre.
           ++ by constructor.
           ++ intros Hyes. rewrite (Hall Hyes), <- app_assoc. done.
        -- exists [Rendered (table ++ [row]); Prompted false]. simpl.
           rewrite app_nil_r, Htake.
           split_and!; [done| |by repeat constructor| |done].
           ++ exists rows. by rewrite <- app_assoc.
           ++ intros Hyes. by rewrite Hyes in Hans.
    + replace (Z.of_nat (List.length table) + 1)%Z
        with (Z.of_nat (List.length (table ++ [row])))
        by (rewrite length_app; simpl; lia).
      destruct (IH asked (i + 1)%Z (table ++ [row])%list) as
        (outs & Hrun & Hpre & Hlen & Hall & Hno).
      { rewrite length_app. simpl. lia. }
      { lia. }
      rewrite Hrun. exists outs.
      rewrite <- app_assoc in Hpre, Hall, Hno. simpl in Hpre, Hall, Hno.
      split_and!; [done..|].
      intros Hans. rewrite (Hno Hans), length_app. simpl.
      replace (Z.to_nat (pageSize - Z.of_nat (List.length table)))
        with (S (Z.to_nat (pageSize -
                           Z.of_nat (List.length table + 1)%nat))) by lia.
      done.
Qed.

Lemma pageLoop_last (pageSize lenDomains : Z) (answers : nat -> bool)
    (rest : list DescribeDomainResponse) (rows : list DomainRow) :
  (0 < pageSize)%Z ->
  (forall k, answers k = true) ->
  Forall2 (fun d row => newDomainRow d = Some row) rest rows ->
  forall asked i table,
    (Z.of_nat (List.length table) < pageSize)%Z ->
    (i + Z.of_nat (List.length rest) <= lenDomains)%Z ->
    exists outs t,
      pageLoop DomainRow newDomainRow pageSize lenDomains answers asked i
        table (Z.of_nat (List.length table)) rest = (outs, Returned) /\
      last outs = Some (Rendered t) /\
      (t = [] <->
       ((Z.of_nat (List.length table) + Z.of_nat (List.length rest))
          mod pageSize = 0)%Z /\
       ((Z.of_nat (List.length table) + Z.of_nat (List.length rest) = 0)%Z \/
        (i + Z.of_nat (List.length rest) < lenDomains)%Z)).
Proof.
  intros Hp Hyes Hrows.
  induction Hrows as [|d row rest rows Hrow Hrest IH];
    intros asked i table Hlt Hi.
  - exists [Rendered table], table. simpl. split_and!; [done..|].
    rewrite Z.add_0_r, Z.mod_small by lia. destruct table; simpl; [|split].
    + split; [intros _; lia|done].
    + done.
    + lia.
  - simpl. rewrite Hrow. simpl in Hi.
    destruct (Z.eqb_spec (Z.of_nat (List.length table) + 1) pageSize)
      as [Hfull|Hmore]; simpl.
    + destruct (Z.eqb_spec i (lenDomains - 1)) as [Hlast|Hnot].
      * exists [Rendered (table ++ [row])], (table ++ [row])%list.
        split_and!; [done..|]. split; [by destruct table|].
        intros [_ [H|H]]; lia.
      * rewrite Hyes. simpl.
        destruct (IH (S asked) (i + 1)%Z []) as
          (outs & t & Hrun & Hlast & Ht); [simpl; lia|lia|].
        change (Z.of_nat (List.length (@nil DomainRow))) with 0%Z in Hrun, Ht.
        rewrite Hrun.
        exists (Rendered (table ++ [row]) :: Prompted true :: outs), t.
        split_and!; [done|by rewrite !last_cons, Hlast|].
        rewrite Ht.
        replace (Z.of_nat (List.length table) +
                 Z.of_nat (S (List.length rest)))%Z
          with (Z.of_nat (List.length rest) + 1 * pageSize)%Z by lia.
        rewrite Z_mod_plus_full, Z.add_0_l.
        split; intros [Hm Hcase]; (split; [done|]); lia.
    + replace (Z.of_nat (List.length table) + 1)%Z
        with (Z.of_nat (List.length (table ++ [row])))
        by (rewrite length_app; simpl; lia).
      destruct (IH asked (i + 1)%Z (table ++ [row])%list) as
        (outs & t & Hrun & Hlast & Ht).
      { rewrite length_app. simpl. lia. }
      { lia. }
      rewrite Hrun. exists outs, t. split_and!; [done..|].
      rewrite Ht, length_app. simpl.
      replace (Z.of_nat (List.length table + 1) + Z.of_nat (List.length rest))%Z
        with (Z.of_nat (List.length table) +
              Z.of_nat (S (List.length rest)))%Z by lia.
      split; intros [Hm Hcase]; (split; [done|]); lia.
Qed.

Lemma pageLoop_zero (lenDomains : Z) (answers : nat -> bool)
    (rest : list DescribeDomainResponse) (rows : list DomainRow) :
  Forall2 (fun d row => newDomainRow d = Some row) rest rows ->
  forall asked i table currentPageSize,
    (0 <= currentPageSize)%Z ->
    pageLoop DomainRow newDomainRow 0 lenDomains answers asked i table
      currentPageSize rest
    = ([Rendered (table ++ rows)%list], Returned).
Proof.
  induction 1 as [|d row rest rows Hrow _ IH]; intros asked i table cps Hcps;
    simpl.
  - by rewrite app_nil_r.
  - rewrite Hrow. destruct (Z.eqb_spec (cps + 1) 0) as [Heq|_]; [lia|].
    simpl. rewrite IH by lia. by rewrite <- app_assoc.
Qed.

Lemma listed_shorter (prefix : string) (printAll printDeprecated : bool)
    (all : list DescribeDomainResponse) :
  (List.length (List.filter (listed registered deprecated prefix
                               printAll printDeprecated) all)
   <= List.length (List.filter (hasPrefix prefix) all))%nat.
Proof. unfold listed. rewrite <- filter_filter. apply filter_shorter. Qed.

(** X13: with [--print_json], and not both [--all] and
    [--deprecated], [ListDomains] prints in one piece the domains
    whose name starts with the prefix and whose status is the one
    asked for (deprecated under [--deprecated], registered without it,
    any under [--all]), in the order in which they were received; the
    page size plays no role and no question is put.  With both
    [--all] and [--deprecated] the command ends with an error before
    anything is shown. *)
Theorem ListDomains_json (pageSize : Z) (prefix : string)
    (printAll printDeprecated : bool)
    (all : list DescribeDomainResponse) (answers : nat -> bool) :
  printAll && printDeprecated = false ->
  Forall (fun d => hasStatus d = true) all ->
  ListDomains DomainRow newDomainRow Marshal registered deprecated
    pageSize prefix printAll printDeprecated true (inr all) answers
  = match Marshal (List.filter (listed registered deprecated prefix
                                  printAll printDeprecated) all) with
    | Some out => ([Printed out], Returned)
    | None => ([], Exited ExitJSON)
    end /\
  (forall printJSON fetched,
     ListDomains DomainRow newDomainRow Marshal registered deprecated
       pageSize prefix true true printJSON fetched answers
     = ([], Exited ExitFlagConflict)).
Proof.
  intros Hflags Hall. split; [|done].
  by rewrite ListDomains_filtered.
Qed.




Lemma statusLoop_nil_status (printDeprecated : bool)
    (domains acc : list DescribeDomainResponse) :
  Exists (fun d => derefStatus d = None) domains ->
  statusLoop registered deprecated printDeprecated domains acc = None.
Proof.
  intros Hex. revert acc.
  induction Hex as [d rest Hd|d rest _ IH]; intros acc; simpl.
  - rewrite Hd. by destruct printDeprecated.
  - destruct printDeprecated; destruct (derefStatus d) as [st|]; try done;
      by destruct (st =? _)%Z.
Qed.

(** X20: without a prefix and without [--all], one domain without a
    status, or without domain info, makes [ListDomains] panic before
    anything is shown, in table mode and in JSON mode; with [--all]
    the status is not read, and in JSON mode all domains are printed
    as received. *)
Theorem ListDomains_nil_status (pageSize : Z) (printDeprecated printJSON : bool)
    (all : list DescribeDomainResponse) (answers : nat -> bool) :
  Exists (fun d => derefStatus d = None) all ->
  ListDomains DomainRow newDomainRow Marshal registered deprecated
    pageSize "" false printDeprecated printJSON (inr all) answers
  = ([], Panicked) /\
  ListDomains DomainRow newDomainRow Marshal registered deprecated
    pageSize "" true false true (inr all) answers
  = match Marshal all with
    | Some out => ([Printed out], Returned)
    | None => ([], Exited ExitJSON)
    end.
Proof.
  intros Hex. unfold ListDomains. simpl. split; [|done].
  by rewrite statusLoop_nil_status.
Qed.

End ListDomainsFacts.

Section ListDomainsWitnesses.
Import Cli CliStart DomainCli.
Local Open Scope string_scope.

Lemma sampleAll_hasStatus : Forall (fun d => hasStatus d = true) sampleAll.
Proof. repeat constructor. Defined.

Lemma sampleAll_rows :
  Forall2 (fun d row => nameRow d = Some row)
    (List.filter (listed 0 1 "" false false) sampleAll)
    ["orders"; "billing"; "ops"].
Proof. repeat constructor. Defined.

Lemma ListDomains_json_witness :
  ListDomains string nameRow nameList 0 1 10 "o" false false true
    (inr sampleAll) (fun _ => true)
  = ([Printed "orders,ops"], Returned).
Proof.
  destruct (ListDomains_json string nameRow nameList 0 1 10 "o" false false
              sampleAll (fun _ => true) eq_refl sampleAll_hasStatus)
    as [Hjson _].
  rewrite Hjson. reflexivity.
Defined.




Lemma ListDomains_nil_status_witness :
  ListDomains string nameRow nameList 0 1 10 "" false false false
    (inr (sampleAll ++ [noStatusDomain])%list) (fun _ => true)
  = ([], Panicked) /\
  ListDomains string nameRow nameList 0 1 10 "" true false true
    (inr (sampleAll ++ [noStatusDomain])%list) (fun _ => true)
  = ([Printed "orders,old-orders,billing,ops,draft"], Returned).
Proof.
  destruct (ListDomains_nil_status string nameRow nameList 0 1 10 false false
              (sampleAll ++ [noStatusDomain])%list (fun _ => true))
    as [Hpanic Hall].
  { unfold sampleAll. simpl. do 4 apply Exists_cons_tl.
    by apply Exists_cons_hd. }
  split; [exact Hpanic|]. rewrite Hall. reflexivity.
Defined.

End ListDomainsWitnesses.

(** ** The domain commands: updating a domain *)

Section UpdateDomainFacts.
Import Cli CliStart DomainCli.
Local Open Scope string_scope.

Variable Server : Type.
Variable describeDomain :
  Server -> string -> (rpcError + DescribeDomainResponse) * Server.
Variable updateDomain :
  Server -> UpdateDomainRequest -> option rpcError * Server.
Variable nilValue : gmap string string.

Lemma sendUpdate_calls (c : Context) (before : list rpcCall)
    (request : UpdateDomainRequest) (s : Server) :
  calls (sendUpdate Server updateDomain c before request s)
  = (before ++
     [CallUpdate (withSecurityToken request (String_ c FlagSecurityToken))])%list.
Proof.
  unfold sendUpdate.
  by destruct (updateDomain s
                 (withSecurityToken request (String_ c FlagSecurityToken))).
Qed.

Lemma toInt32_small (x : Z) :
  (- 2 ^ 31 <= x < 2 ^ 31)%Z -> toInt32 x = x.
Proof. intros H. unfold toInt32. rewrite Z.mod_small; lia. Qed.

(** X17: when the active cluster flag is set, [UpdateDomain] makes a
    single call, an update, and never describes the domain; the
    request carries the domain name, the new active cluster, the
    security token and, for the failover type [grace] only, the
    failover timeout, and every other field is left out.  No other
    flag, nor the operator, has any influence on what is sent. *)
Theorem UpdateDomain_failover_only (c : Context)
    (domainName operator : string) (s : Server) :
  IsSet c FlagActiveClusterName = true ->
  (exists request,
     calls (UpdateDomain Server describeDomain updateDomain nilValue
              c domainName operator s) = [CallUpdate request] /\
     ReqName request = domainName /\
     ReqActiveClusterName request = Some (String_ c FlagActiveClusterName) /\
     SecurityToken request = String_ c FlagSecurityToken /\
     FailoverTimeoutInSeconds request
     = (if String.eqb (String_ c FlagFailoverType) "grace"
        then Some (toInt32 (Int c FlagFailoverTimeout)) else None) /\
     ReqDescription request = None /\ ReqOwnerEmail request = None /\
     ReqData request = ∅ /\ ReqRetentionDays request = None /\
     ReqEmitMetric request = None /\ BadBinaries request = None /\
     DeleteBadBinary request = None /\ ReqClusters request = [] /\
     HistoryArchivalStatus request = None /\
     HistoryArchivalURI request = None /\
     VisibilityArchivalStatus request = None /\
     VisibilityArchivalURI request = None) /\
  (forall c' operator',
     IsSet c' FlagActiveClusterName = true ->
     String_ c' FlagActiveClusterName = String_ c FlagActiveClusterName ->
     String_ c' FlagSecurityToken = String_ c FlagSecurityToken ->
     String_ c' FlagFailoverType = String_ c FlagFailoverType ->
     Int c' FlagFailoverTimeout = Int c FlagFailoverTimeout ->
     UpdateDomain Server describeDomain updateDomain nilValue
       c' domainName operator' s
     = UpdateDomain Server describeDomain updateDomain nilValue
         c domainName operator s) /\
  ((- 2 ^ 31 <= Int c FlagFailoverTimeout < 2 ^ 31)%Z ->
   toInt32 (Int c FlagFailoverTimeout) = Int c FlagFailoverTimeout).
Proof.
  intros Hset. unfold UpdateDomain. rewrite Hset. split_and!.
  - eexists. rewrite sendUpdate_calls. simpl. split_and!; reflexivity.
  - intros c' operator' Hset' Hac Hst Hft Hto. rewrite Hset'.
    unfold sendUpdate, failoverOnlyRequest. by rewrite Hac, Hst, Hft, Hto.
  - apply toInt32_small.
Qed.

(** X18: without the active cluster flag, [UpdateDomain] first
    describes the domain and sends at most one update, only after a
    successful description, only with a reason when a bad binary is
    added, and only with archival status values that are [enabled] or
    [disabled].  The update sets neither the active cluster nor a
    failover timeout; it carries the description, the owner and the
    retention days of the description of the domain unless their flag
    is set, always its emit-metric setting, and always both archival
    URIs, empty when their flags are not set. *)
Theorem UpdateDomain_merge (c : Context) (domainName operator : string)
    (s : Server) :
  IsSet c FlagActiveClusterName = false ->
  (calls (UpdateDomain Server describeDomain updateDomain nilValue
            c domainName operator s) = [CallDescribe domainName] \/
   exists request resp s',
     calls (UpdateDomain Server describeDomain updateDomain nilValue
              c domainName operator s)
     = [CallDescribe domainName; CallUpdate request] /\
     describeDomain s domainName = (inr resp, s') /\
     (IsSet c FlagAddBadBinary = true -> IsSet c FlagReason = true) /\
     (forall f, f = FlagHistoryArchivalStatus \/
                f = FlagVisibilityArchivalStatus ->
        IsSet c f = true ->
        String_ c f = "disabled" \/ String_ c f = "enabled") /\
     ReqName request = domainName /\
     ReqActiveClusterName request = None /\
     FailoverTimeoutInSeconds request = None /\
     SecurityToken request = String_ c FlagSecurityToken /\
     ReqEmitMetric request = Some (GetEmitMetric (Configuration resp)) /\
     (IsSet c FlagDescription = false ->
      ReqDescription request = Some (GetDescription (DomainInfo_ resp))) /\
     (IsSet c FlagOwnerEmail = false ->
      ReqOwnerEmail request = Some (GetOwnerEmail (DomainInfo_ resp))) /\
     (IsSet c FlagRetentionDays = false ->
      ReqRetentionDays request
      = Some (GetWorkflowExecutionRetentionPeriodInDays
                (Configuration resp))) /\
     HistoryArchivalURI request = Some (String_ c FlagHistoryArchivalURI) /\
     VisibilityArchivalURI request
     = Some (String_ c FlagVisibilityArchivalURI) /\
     (BadBinaries request = None <-> IsSet c FlagAddBadBinary = false)).
Proof.
  intros Hset. unfold UpdateDomain. rewrite Hset.
  destruct (describeDomain s domainName) as [[err|resp] s'] eqn:Hdesc;
    [by left|].
  unfold mergedRequest.
  destruct (IsSet c FlagAddBadBinary) eqn:Hbad;
    destruct (IsSet c FlagReason) eqn:Hreason; simpl; try by left.
  all: unfold archivalStatus.
  all: destruct (IsSet c FlagHistoryArchivalStatus) eqn:Hh;
    [destruct (String.eqb_spec (String_ c FlagHistoryArchivalStatus)
                 "disabled") as [Hhd|Hhd];
     [|destruct (String.eqb_spec (String_ c FlagHistoryArchivalStatus)
                   "enabled") as [Hhe|Hhe]; [|by left]]|].
  all: destruct (IsSet c FlagVisibilityArchivalStatus) eqn:Hv;
    [destruct (String.eqb_spec (String_ c FlagVisibilityArchivalStatus)
                 "disabled") as [Hvd|Hvd];
     [|destruct (String.eqb_spec (String_ c FlagVisibilityArchivalStatus)
                   "enabled") as [Hve|Hve]; [|by left]]|].
  all: right; eexists; exists resp, s'; rewrite sendUpdate_calls; simpl.
  all: split_and!; try reflexivity; try done.
  all: try (intros f [-> | ->] Hf; try congruence; auto).
  all: try by intros ->.
  all: try (split; done).
Qed.

End UpdateDomainFacts.

Section UpdateDomainWitnesses.
Import Cli CliStart DomainCli.
Local Open Scope string_scope.

Lemma UpdateDomain_failover_only_witness :
  exists request,
    calls (UpdateDomain unit describeAny acceptUpdate ∅
             failoverContext "orders" "me" tt) = [CallUpdate request] /\
    ReqActiveClusterName request = Some "dc2" /\
    ReqDescription request = None /\
    FailoverTimeoutInSeconds request = Some 30.
Proof.
  destruct (UpdateDomain_failover_only unit describeAny acceptUpdate ∅
              failoverContext "orders" "me" tt eq_refl)
    as ((request & Hcalls & _ & Hac & _ & Hto & Hdesc & _) & _ & _).
  exists request. split_and!; [exact Hcalls|exact Hac|exact Hdesc|].
  rewrite Hto. reflexivity.
Defined.

Lemma UpdateDomain_merge_witness :
  exists request,
    calls (UpdateDomain unit describeAny acceptUpdate ∅
             ownerContext "orders" "me" tt)
    = [CallDescribe "orders"; CallUpdate request] /\
    ReqDescription request = Some "orders" /\
    ReqRetentionDays request = Some 7.
Proof.
  destruct (UpdateDomain_merge unit describeAny acceptUpdate ∅
              ownerContext "orders" "me" tt eq_refl)
    as [Hone|(request & resp & s' & Hcalls & Hdesc & _ & _ & _ & _ & _ & _
              & _ & Hd & _ & Hr & _)].
  - discriminate Hone.
  - exists request. injection Hdesc as <- _.
    split_and!; [exact Hcalls|by apply Hd|by apply Hr].
Defined.

End UpdateDomainWitnesses.

(** ** The client factory *)

Section FactoryFacts.
Import Factory.
Local Open Scope string_scope.

Variable grpcTransport tchannelPort grpcPort : string.

Lemma ensureDispatcher_set (sys : System) (c : Flags) (b b' : clientFactory) :
  ensureDispatcher grpcTransport tchannelPort grpcPort sys c b = inr b' ->
  exists d, dispatcher b' = Some d.
Proof.
  unfold ensureDispatcher.
  destruct (dispatcher b) as [d|] eqn:Hd.
  - intros [= <-]. by exists d.
  - destruct (String.eqb (transport c) grpcTransport);
      [destruct (negb (String.eqb (tlsCertPath c) ""));
       [destruct (ReadFile sys (tlsCertPath c)) as [ca|]; [|done];
        destruct (negb (AppendCertsFromPEM sys ca)); [done|]|]
      |destruct (NewChannelTransport sys); [|done]];
      match goal with
      | |- context [Start sys ?d] => destruct (Start sys d); [|done]
      end; intros [= <-]; by eexists.
Qed.

(** X19: a client factory sets up its dispatcher once.  When
    [ensureDispatcher] returns, the factory has a dispatcher, and any
    later call, with whatever flags, leaves the factory as it is: the
    clients built afterwards share the first dispatcher and its
    address.  The first call dials the address flag when it is not
    empty, otherwise the default port of the transport; over TChannel
    the TLS certificate flag is not looked at, over gRPC it is used
    exactly when it is not empty, and then the certificate file has
    been read and accepted. *)
Theorem ensureDispatcher_once (sys : System) (c : Flags)
    (b b' : clientFactory) :
  ensureDispatcher grpcTransport tchannelPort grpcPort sys c b = inr b' ->
  (forall sys' c',
     ensureDispatcher grpcTransport tchannelPort grpcPort sys' c' b'
     = inr b') /\
  (forall sys' c', exists kind,
     serverClient grpcTransport tchannelPort grpcPort sys' c' b'
     = inr (kind, dispatcher b', b')) /\
  (forall d, dispatcher b = Some d -> b' = b) /\
  (dispatcher b = None ->
   exists d, dispatcher b' = Some d /\
     target (Unary d) = hostPort b' /\
     hostPort b'
     = (if negb (String.eqb (address c) "") then address c
        else if String.eqb (transport c) grpcTransport then grpcPort
             else tchannelPort) /\
     (String.eqb (transport c) grpcTransport = false ->
      Unary d = ChannelSingleOutbound (hostPort b')) /\
     (String.eqb (transport c) grpcTransport = true ->
      tlsCertPath c = "" -> Unary d = GrpcSingleOutbound (hostPort b')) /\
     (String.eqb (transport c) grpcTransport = true ->
      tlsCertPath c <> "" ->
      exists caCert, ReadFile sys (tlsCertPath c) = Some caCert /\
        AppendCertsFromPEM sys caCert = true /\
        Unary d = GrpcTLSOutbound (hostPort b') caCert)).
Proof.
  intros Hrun.
  assert (Hagain : forall sys' c',
    ensureDispatcher grpcTransport tchannelPort grpcPort sys' c' b' = inr b').
  { intros sys' c'. destruct (ensureDispatcher_set sys c b b' Hrun) as [d Hd].
    unfold ensureDispatcher. by rewrite Hd. }
  split_and!.
  - exact Hagain.
  - intros sys' c'. unfold serverClient. rewrite Hagain. by eexists.
  - intros d Hd. unfold ensureDispatcher in Hrun. rewrite Hd in Hrun.
    by injection Hrun.
  - intros Hnone. unfold ensureDispatcher in Hrun. rewrite Hnone in Hrun.
    destruct (String.eqb (transport c) grpcTransport) eqn:Hgrpc.
    + destruct (String.eqb_spec (tlsCertPath c) "") as [Hpath|Hpath];
        simpl in Hrun.
      * destruct (Start sys _) in Hrun; [|done]. injection Hrun as <-.
        eexists. simpl. split_and!; try done.
      * destruct (ReadFile sys (tlsCertPath c)) as [ca|] eqn:Hread; [|done].
        destruct (AppendCertsFromPEM sys ca) eqn:Hadd; [|done].
        simpl in Hrun. destruct (Start sys _) in Hrun; [|done].
        injection Hrun as <-. eexists. simpl. split_and!; try done.
        intros _ _. by exists ca.
    + destruct (NewChannelTransport sys); [|done].
      destruct (Start sys _) in Hrun; [|done]. injection Hrun as <-.
      eexists. simpl. split_and!; try done.
Qed.

End FactoryFacts.

Section FactoryWitnesses.
Import Factory.
Local Open Scope string_scope.

Lemma ensureDispatcher_once_witness :
  exists b',
    ensureDispatcher "grpc" "127.0.0.1:7933" "127.0.0.1:7833" goodSystem
      addressFlags {| hostPort := ""; dispatcher := None |} = inr b' /\
    hostPort b' = "10.0.0.1:7933" /\
    ensureDispatcher "grpc" "127.0.0.1:7933" "127.0.0.1:7833" goodSystem
      grpcFlags b' = inr b'.
Proof.
  eexists. split; [reflexivity|]. split; [reflexivity|].
  apply (ensureDispatcher_once "grpc" "127.0.0.1:7933" "127.0.0.1:7833"
           goodSystem addressFlags {| hostPort := ""; dispatcher := None |}).
  reflexivity.
Defined.

End FactoryWitnesses.
